(** * MiniGit: a shallow embedding of [minigit.cpp] and [main.cpp]

    The program keeps a content-addressed object store, a persisted staging
    index and a HEAD pointer below the directory [.minigit].  The embedding
    follows the C++ source function by function:

    - text handling ([std::getline], [operator>>], [rfind]/[substr]) is
      modelled on [string];
    - [std::map<std::string,std::string>] is a [gmap string string] that is
      iterated in increasing key order ([entries]);
    - the file system is a finite map from paths to nodes, and every
      command is a computation in a state-and-exception monad over a
      [world] (file system plus a chronological trace of console output and
      completed writes);
    - [std::hash<std::string>] is implementation-defined: it is a parameter
      ([hasher]) of the development, as are the environment's answer to
      "can this path be opened for writing" ([can_write]) and the file
      that a name given on the command line denotes ([resolve]): such a
      name may well denote the index, HEAD or an object.

    The file has three parts: the embedding and the vocabulary of the
    statements; the properties, stated for every [hasher], [can_write]
    and [resolve];
    and instances of the properties in small sample repositories. *)

From Stdlib Require Import Ascii HexString.
From stdpp Require Import base strings list gmap fin_maps sorting.

(** ** Characters and text *)

Definition newline : ascii := "010"%char.
Definition dquote : ascii := Ascii.ascii_of_nat 34.
Definition backslash : ascii := Ascii.ascii_of_nat 92.
Definition endl : string := String newline "".

(** [std::isspace] in the "C" locale, the class [operator>>] skips. *)
Definition isspace (c : ascii) : bool :=
  match c with
  | "009" | "010" | "011" | "012" | "013" | " " => true
  | _ => false
  end%char.

(** The sequence of lines that [while (std::getline(ss, line))] visits: a
    line ends at ['\n'] (which is consumed) or at the end of the text, and
    [getline] fails once no character at all is left. *)
Fixpoint getlines (s : string) : list string :=
  match s with
  | "" => []
  | String c s' =>
      if Ascii.eqb c newline then "" :: getlines s'
      else match getlines s' with
           | [] => [String c ""]
           | l :: ls => String c l :: ls
           end
  end.

(** [operator>>(istream&, std::string&)]: skip leading white space, then
    take the longest run of non-space characters; the extraction fails when
    that run is empty. *)
Fixpoint skip_ws (s : string) : string :=
  match s with
  | String c s' => if isspace c then skip_ws s' else s
  | "" => ""
  end.

Fixpoint read_word (s : string) : string * string :=
  match s with
  | String c s' =>
      if isspace c then ("", s)
      else let '(w, r) := read_word s' in (String c w, r)
  | "" => ("", "")
  end.

Definition extract (s : string) : option (string * string) :=
  match read_word (skip_ws s) with
  | ("", _) => None
  | (w, r) => Some (w, r)
  end.

(** [ss >> filename >> hash] as a condition: both extractions succeed. *)
Definition extract2 (s : string) : option (string * string) :=
  match extract s with
  | Some (filename, r) =>
      match extract r with
      | Some (hash, _) => Some (filename, hash)
      | None => None
      end
  | None => None
  end.

(** [line.rfind(p, 0) == 0] holds exactly when [p] is a prefix of [line]. *)
Fixpoint starts_with (p line : string) : bool :=
  match p, line with
  | "", _ => true
  | String a p', String b l' => Ascii.eqb a b && starts_with p' l'
  | String _ _, "" => false
  end.

(** [line.substr(n)] for [n] not beyond the end of [line]. *)
Fixpoint substr (n : nat) (line : string) : string :=
  match n, line with
  | O, _ => line
  | S n', String _ l' => substr n' l'
  | S _, "" => ""
  end.

(** [std::quoted], used by [operator<<] on a [std::filesystem::path]. *)
Fixpoint escape (s : string) : string :=
  match s with
  | "" => ""
  | String c s' =>
      if Ascii.eqb c dquote || Ascii.eqb c backslash
      then String backslash (String c (escape s'))
      else String c (escape s')
  end.

Definition quoted (s : string) : string :=
  String dquote (escape s) +:+ String dquote "".

(** ** [std::map<std::string, std::string>] *)

(** Keys are compared as [std::string::operator<] does, byte-wise. *)
Definition key_le (e1 e2 : string * string) : Prop :=
  String.le e1.1 e2.1.

#[global] Instance key_le_dec : RelDecision key_le.
Proof. intros e1 e2. unfold key_le. apply _. Defined.

(** Iteration over a [std::map] visits the entries in increasing key order. *)
Definition entries (m : gmap string string) : list (string * string) :=
  merge_sort key_le (map_to_list m).

(** ** Paths, the file system and the world *)

(** The files and directories the program can touch: the four constants
    of [minigit.h], an object [OBJECTS_DIR / hash], and a file or
    directory outside [.minigit] (under some canonical name).  Which of
    them a name typed on the command line denotes is not decided here:
    see [resolve].  The hashes that the program makes are strings of
    hexadecimal digits, so that [OBJECTS_DIR / hash] is a file directly
    below the object directory; a hash read from HEAD or from a commit
    object is taken to be such a plain file name, too (one with a
    directory separator in it would denote a file elsewhere). *)
Inductive path :=
  | GIT_DIR
  | OBJECTS_DIR
  | HEAD_FILE
  | INDEX_FILE
  | Object (hash : string)
  | WorkFile (filename : string).

#[global] Instance path_eq_dec : EqDecision path.
Proof. solve_decision. Defined.

Definition path_code (p : path) : nat + (string + string) :=
  match p with
  | GIT_DIR => inl 0
  | OBJECTS_DIR => inl 1
  | HEAD_FILE => inl 2
  | INDEX_FILE => inl 3
  | Object h => inr (inl h)
  | WorkFile f => inr (inr f)
  end.

Definition path_decode (x : nat + (string + string)) : path :=
  match x with
  | inl 0 => GIT_DIR
  | inl 1 => OBJECTS_DIR
  | inl 2 => HEAD_FILE
  | inl _ => INDEX_FILE
  | inr (inl h) => Object h
  | inr (inr f) => WorkFile f
  end.

#[global] Instance path_countable : Countable path.
Proof.
  apply (inj_countable' path_code path_decode). by intros [].
Defined.

(** [path::string()]. *)
Definition path_string (p : path) : string :=
  match p with
  | GIT_DIR => ".minigit"
  | OBJECTS_DIR => ".minigit/objects"
  | HEAD_FILE => ".minigit/HEAD"
  | INDEX_FILE => ".minigit/index"
  | Object h => ".minigit/objects/" +:+ h
  | WorkFile f => f
  end.

(** A regular file the process can open for reading, a directory, or a
    regular file that the process cannot open for reading. *)
Inductive node :=
  | File (content : string)
  | Dir
  | Unreadable.

#[global] Instance node_eq_dec : EqDecision node.
Proof. solve_decision. Defined.

(** What an observer sees, in the order it happens. *)
Inductive event :=
  | Out (text : string)                   (* written to [std::cout] *)
  | Err (text : string)                   (* written to [std::cerr] *)
  | Wrote (p : path) (content : string)   (* a file was (re)written *)
  | MkDir (p : path).                     (* a directory was created *)

#[global] Instance event_eq_dec : EqDecision event.
Proof. solve_decision. Defined.

Record world := World {
  fs : gmap path node;
  trace : list event;
}.

Definition emit (e : event) (w : world) : world :=
  World (fs w) (trace w ++ [e]).

(** ** Computations: state plus C++ exceptions *)

Inductive result (A : Type) :=
  | Ok (a : A)
  | Throw (what : string).
Arguments Ok {A} a.
Arguments Throw {A} what.

Definition M (A : Type) : Type := world → result A * world.

Definition ret {A} (a : A) : M A := λ w, (Ok a, w).

Definition bind {A B} (m : M A) (k : A → M B) : M B :=
  λ w, match m w with
       | (Ok a, w') => k a w'
       | (Throw e, w') => (Throw e, w')
       end.

Definition throw {A} (what : string) : M A := λ w, (Throw what, w).

Declare Scope minigit_scope.
Delimit Scope minigit_scope with mg.
Notation "x <- m ;; k" := (bind m (λ x, k))
  (at level 100, m at next level, right associativity) : minigit_scope.
Notation "m ;; k" := (bind m (λ _, k))
  (at level 100, right associativity) : minigit_scope.
Open Scope minigit_scope.

Definition cout (text : string) : M unit := λ w, (Ok tt, emit (Out text) w).
Definition cerr (text : string) : M unit := λ w, (Ok tt, emit (Err text) w).

(** [fs::exists] and [fs::is_directory]. *)
Definition exists_ (p : path) : M bool :=
  λ w, (Ok (bool_decide (is_Some (fs w !! p))), w).

Definition is_directory (p : path) : M bool :=
  λ w, (Ok (bool_decide (fs w !! p = Some Dir)), w).

(** [std::ifstream file(p)]: [None] when the stream is not open (there is
    no such path, or the file cannot be opened for reading), otherwise the
    text that can be read from it.  A directory can be opened, but no
    character can be read from it. *)
Definition ifstream (w : world) (p : path) : option string :=
  match fs w !! p with
  | Some (File c) => Some c
  | Some Dir => Some ""
  | Some Unreadable | None => None
  end.

Definition empty (s : string) : bool :=
  match s with "" => true | _ => false end.

(** A range-based [for] loop whose body may throw. *)
Fixpoint for_each {A S} (l : list A) (body : S → A → M S) (s : S) : M S :=
  match l with
  | [] => ret s
  | x :: l' => s' <- body s x ;; for_each l' body s'
  end.

(** ** The program *)

Section MiniGit.

(** [std::hash<std::string>{}(content)], a [size_t]. *)
Variable hasher : string → N.

(** Whether the environment lets the process create or open the path for
    writing (the parent directory is there, permissions allow it, ...). *)
Variable can_write : path → bool.

(** The file or directory that a name given on the command line denotes,
    as the operating system resolves it from the current directory.
    Different names may denote the same file, and a name may denote a
    file of the repository ([.minigit/index], say). *)
Variable resolve : string → path.

(** [fs::absolute(GIT_DIR).string()]; depends on the current directory. *)
Variable absolute_git_dir : string.

(** [what()] of the [filesystem_error] of a failed [create_directory];
    its text is chosen by the C++ library. *)
Variable fs_error_what : path → string.

(** *** Helper functions *)

Definition repoExists : M bool :=
  e <- exists_ GIT_DIR ;;
  if e then is_directory GIT_DIR else ret false.

(** [filename] is [filename.string()], [file] the file that path
    denotes. *)
Definition readFileContent (filename : string) (file : path) : M string :=
  λ w, match ifstream w file with
       | Some content => (Ok content, w)
       | None => (Throw ("Could not open file: " +:+ filename), w)
       end.

(** An output stream opened on [p] truncates the file; closing it leaves
    [content] there, in a file the process can read (files that can be
    written but not read are not modelled). *)
Definition ofstream_write (p : path) (content : string) (w : world) : world :=
  World (<[p := File content]> (fs w)) (trace w ++ [Wrote p content]).

Definition writeFileContent (filepath : path) (content : string) : M unit :=
  λ w, if can_write filepath
       then (Ok tt, ofstream_write filepath content w)
       else (Throw ("Could not write to file: " +:+ path_string filepath), w).

(** [ss << std::hex << hashVal]: lower-case digits, no prefix, no padding. *)
Definition hashString (content : string) : string :=
  match hasher content with
  | N0 => "0"
  | Npos p => HexString.Raw.of_pos p ""
  end.

(** The body of the read loop of [getStagingArea]. *)
Definition index_line (stagedFiles : gmap string string) (line : string)
  : gmap string string :=
  match extract2 line with
  | Some (filename, hash) => <[filename := hash]> stagedFiles
  | None => stagedFiles
  end.

Definition getStagingArea : M (gmap string string) :=
  e <- exists_ INDEX_FILE ;;
  if negb e then ret ∅
  else λ w,
    let lines := match ifstream w INDEX_FILE with
                 | Some text => getlines text
                 | None => []
                 end in
    (Ok (foldl index_line ∅ lines), w).

(** The text [setStagingArea] streams into the index file. *)
Definition index_text (stagedFiles : gmap string string) : string :=
  foldr (λ pair text, pair.1 +:+ " " +:+ pair.2 +:+ endl +:+ text) ""
        (entries stagedFiles).

(** No [is_open] test here: when the file cannot be opened the writes are
    lost without any report. *)
Definition setStagingArea (stagedFiles : gmap string string) : M unit :=
  λ w, if can_write INDEX_FILE
       then (Ok tt, ofstream_write INDEX_FILE (index_text stagedFiles) w)
       else (Ok tt, w).

Definition getHEAD : M string :=
  e <- exists_ HEAD_FILE ;;
  if negb e then ret ""
  else readFileContent (path_string HEAD_FILE) HEAD_FILE.

Definition setHEAD (commitHash : string) : M unit :=
  writeFileContent HEAD_FILE commitHash.

(** The body of the read loop of [getCommitFiles]. *)
Definition commit_file_line (files : gmap string string) (line : string)
  : gmap string string :=
  if starts_with "file: " line then
    match extract2 (substr 6 line) with
    | Some (filename, hash) => <[filename := hash]> files
    | None => files
    end
  else files.

Definition getCommitFiles (commitHash : string) : M (gmap string string) :=
  if empty commitHash then ret ∅
  else
    e <- exists_ (Object commitHash) ;;
    if negb e then throw ("Cannot find commit object: " +:+ commitHash)
    else
      content <- readFileContent (path_string (Object commitHash))
                                 (Object commitHash) ;;
      ret (foldl commit_file_line ∅ (getlines content)).

(** *** Core commands *)

Definition create_directory (p : path) : M bool :=
  λ w, match fs w !! p with
       | Some Dir => (Ok false, w)
       | Some (File _) | Some Unreadable => (Throw (fs_error_what p), w)
       | None =>
           if can_write p
           then (Ok true, World (<[p := Dir]> (fs w)) (trace w ++ [MkDir p]))
           else (Throw (fs_error_what p), w)
       end.

Definition init : M unit :=
  r <- repoExists ;;
  if r then
    cout ("MiniGit repository already initialized in "
          +:+ quoted (path_string GIT_DIR) +:+ endl)
  else
    create_directory GIT_DIR ;;
    create_directory OBJECTS_DIR ;;
    setHEAD "" ;;
    setStagingArea ∅ ;;
    cout ("Initialized empty MiniGit repository in "
          +:+ quoted absolute_git_dir +:+ endl).

(** The body of the loop of [add]. *)
Definition add_file (stagedFiles : gmap string string) (filename : string)
  : M (gmap string string) :=
  e <- exists_ (resolve filename) ;;
  if negb e then
    cerr ("File not found: " +:+ filename +:+ ". Skipping." +:+ endl) ;;
    ret stagedFiles
  else
    d <- is_directory (resolve filename) ;;
    if d then
      cerr ("Cannot add directories: " +:+ filename +:+ ". Skipping." +:+ endl) ;;
      ret stagedFiles
    else
      content <- readFileContent filename (resolve filename) ;;
      let hash := hashString content in
      present <- exists_ (Object hash) ;;
      (if negb present then writeFileContent (Object hash) content else ret tt) ;;
      cout ("Staged " +:+ filename +:+ endl) ;;
      ret (<[filename := hash]> stagedFiles).

Definition add (filenames : list string) : M unit :=
  stagedFiles <- getStagingArea ;;
  stagedFiles <- for_each filenames add_file stagedFiles ;;
  setStagingArea stagedFiles.

(** Step 4 of [commit]: [commitFiles[pair.first] = pair.second] for every
    staged pair. *)
Definition merge_staged (commitFiles stagedFiles : gmap string string)
  : gmap string string :=
  foldl (λ files pair, <[pair.1 := pair.2]> files) commitFiles
        (entries stagedFiles).

(** Step 5 of [commit]: the text of the commit object. *)
Definition commit_text (parentCommit message : string)
    (commitFiles : gmap string string) : string :=
  "parent: " +:+ parentCommit +:+ endl +:+
  "message: " +:+ message +:+ endl +:+
  foldr (λ pair text,
           "file: " +:+ pair.1 +:+ " " +:+ pair.2 +:+ endl +:+ text) ""
        (entries commitFiles).

Definition commit (message : string) : M unit :=
  stagedFiles <- getStagingArea ;;
  if decide (stagedFiles = ∅) then
    cout ("Nothing to commit, working tree clean." +:+ endl)
  else
    parentCommit <- getHEAD ;;
    inherited <- (if negb (empty parentCommit)
                  then getCommitFiles parentCommit else ret ∅) ;;
    let commitFiles := merge_staged inherited stagedFiles in
    let commitString := commit_text parentCommit message commitFiles in
    let commitHash := hashString commitString in
    writeFileContent (Object commitHash) commitString ;;
    setHEAD commitHash ;;
    setStagingArea ∅ ;;
    cout ("Committed [" +:+ commitHash +:+ "] " +:+ message +:+ endl).

(** The inner loop of [log]: the last [parent: ] and [message: ] lines win. *)
Definition log_line (acc : string * string) (line : string) : string * string :=
  let '(parentHash, message) := acc in
  if starts_with "parent: " line then (substr 8 line, message)
  else if starts_with "message: " line then (parentHash, substr 9 line)
  else acc.

(** The outer [while] loop of [log].  Nothing bounds the number of
    iterations in the source (a store whose parent links form a cycle
    keeps it running), so the loop takes fuel; [None] means the fuel ran
    out before the loop ended. *)
Fixpoint log_loop (fuel : nat) (currentCommitHash : string) (w : world)
  : option (result unit * world) :=
  if empty currentCommitHash then Some (Ok tt, w)
  else
    match fuel with
    | O => None
    | S fuel' =>
        match fs w !! Object currentCommitHash with
        | None =>
            Some (cerr ("Fatal: Missing commit object "
                        +:+ currentCommitHash +:+ endl) w)
        | Some _ =>
            match readFileContent (path_string (Object currentCommitHash))
                                  (Object currentCommitHash) w with
            | (Throw e, w') => Some (Throw e, w')
            | (Ok commitContent, w') =>
                let '(parentHash, message) :=
                  foldl log_line ("", "") (getlines commitContent) in
                let w'' :=
                  emit (Out ("    " +:+ message +:+ endl +:+ endl))
                    (emit (Out ("commit " +:+ currentCommitHash +:+ endl)) w') in
                log_loop fuel' parentHash w''
            end
        end
    end.

Definition log (fuel : nat) (w : world) : option (result unit * world) :=
  match getHEAD w with
  | (Throw e, w') => Some (Throw e, w')
  | (Ok currentCommitHash, w') =>
      if empty currentCommitHash
      then Some (cout ("No commits yet." +:+ endl) w')
      else log_loop fuel currentCommitHash w'
  end.

(** *** The command line ([main.cpp]) *)

Definition printUsage : M unit :=
  cerr ("Usage: minigit <command> [options]" +:+ endl +:+
        endl +:+
        "Available commands:" +:+ endl +:+
        "  init                  Create an empty MiniGit repository" +:+ endl +:+
        "  add <file1> [file2]...  Add file(s) to the staging area" +:+ endl +:+
        "  commit -m " +:+ String dquote "<message>" +:+ String dquote
        "   Record changes to the repository" +:+ endl +:+
        "  log                   Show the commit history" +:+ endl +:+
        endl).

Definition commit_usage : string :=
  "Usage: minigit commit -m " +:+ String dquote "<message>"
  +:+ String dquote endl.

(** The [try] block of [main] for [argv[1] = command] and the remaining
    arguments [args]; it yields the value [main] returns unless an
    exception escapes. *)
Definition dispatch (fuel : nat) (command : string) (args : list string)
    (w : world) : option (result Z * world) :=
  if decide (command = "init") then
    Some ((init ;; ret 0%Z) w)
  else if decide (command = "add") then
    Some ((r <- repoExists ;;
           if negb r then
             cerr ("Fatal: Not a MiniGit repository. (Run 'minigit init' first)"
                   +:+ endl) ;;
             ret 1%Z
           else
             match args with
             | [] =>
                 cerr ("Usage: minigit add <file1> [file2]..." +:+ endl) ;;
                 ret 1%Z
             | filesToAdd => add filesToAdd ;; ret 0%Z
             end) w)
  else if decide (command = "commit") then
    Some ((r <- repoExists ;;
           if negb r then
             cerr ("Fatal: Not a MiniGit repository." +:+ endl) ;; ret 1%Z
           else
             match args with
             | [flag; message] =>
                 if decide (flag = "-m")
                 then commit message ;; ret 0%Z
                 else cerr commit_usage ;; ret 1%Z
             | _ => cerr commit_usage ;; ret 1%Z
             end) w)
  else if decide (command = "log") then
    match repoExists w with
    | (Throw e, w') => Some (Throw e, w')
    | (Ok false, w') =>
        Some ((cerr ("Fatal: Not a MiniGit repository." +:+ endl) ;;
               ret 1%Z) w')
    | (Ok true, w') =>
        match log fuel w' with
        | None => None
        | Some (Throw e, w'') => Some (Throw e, w'')
        | Some (Ok _, w'') => Some (Ok 0%Z, w'')
        end
    end
  else
    Some ((cerr ("Unknown command: " +:+ command +:+ endl) ;;
           printUsage ;;
           ret 1%Z) w).

(** [main]: the exit status and the final world; [None] when [log] did
    not finish within the fuel. *)
Definition main (fuel : nat) (argv : list string) (w : world)
  : option (Z * world) :=
  match argv with
  | [] | [_] => Some (1%Z, (printUsage w).2)
  | _ :: command :: args =>
      match dispatch fuel command args w with
      | None => None
      | Some (Ok status, w') => Some (status, w')
      | Some (Throw what, w') =>
          Some (1%Z, (cerr ("Error: " +:+ what +:+ endl) w').2)
      end
  end.

End MiniGit.

(** ** Vocabulary of the statements *)

(** *** Shapes of text *)

Fixpoint all_chars (P : ascii → bool) (s : string) : bool :=
  match s with
  | "" => true
  | String c s' => P c && all_chars P s'
  end.

(** A text without a line break. *)
Definition one_line (s : string) : bool :=
  all_chars (λ c, negb (Ascii.eqb c newline)) s.

(** A non-empty text without white space: what [operator>>] reads back
    unchanged. *)
Definition is_word (s : string) : bool :=
  negb (empty s) && all_chars (λ c, negb (isspace c)) s.

Definition words_only (m : gmap string string) : Prop :=
  ∀ f h, m !! f = Some h → is_word f = true ∧ is_word h = true.

Definition record_ok (pair : string * string) : Prop :=
  is_word pair.1 = true ∧ is_word pair.2 = true.

(** *** Worlds *)

Section Vocabulary.

Variable hasher : string → N.
Variable resolve : string → path.

(** Every object sits under the hash of its own content. *)
Definition content_addressed (w : world) : Prop :=
  ∀ h blob, fs w !! Object h = Some blob →
    ∃ c, blob = File c ∧ h = hashString hasher c.

(** The contents present in [w]: what its readable files hold. *)
Definition known (w : world) (c : string) : Prop :=
  ∃ p, fs w !! p = Some (File c).

(** No two contents present in [w] share a hash. *)
Definition collision_free (w : world) : Prop :=
  ∀ c1 c2, known w c1 → known w c2 →
    hashString hasher c1 = hashString hasher c2 → c1 = c2.

(** How the loop of [add] over [filenames] may change a world: paths
    outside the object store keep their node, stored objects stay, a new
    object is the content of one of the named files under its hash, and
    the trace is extended. *)
Definition add_grows (filenames : list string) (w w' : world) : Prop :=
  (∀ p, (∀ h, p ≠ Object h) → fs w' !! p = fs w !! p) ∧
  (∀ h blob, fs w !! Object h = Some blob → fs w' !! Object h = Some blob) ∧
  (∀ h blob, fs w' !! Object h = Some blob →
     fs w !! Object h = Some blob ∨
     ∃ f c, f ∈ filenames ∧ fs w !! resolve f = Some (File c) ∧
            h = hashString hasher c ∧ blob = File c) ∧
  (∃ evs, trace w' = trace w ++ evs).

End Vocabulary.

(** The layout of a commit object as the specification words it: the
    parent line, the message line, then one line per snapshot entry. *)
Definition file_entry_line (pair : string * string) : string :=
  "file: " +:+ pair.1 +:+ " " +:+ pair.2 +:+ endl.

Definition spec_commit_layout (parent message : string)
    (snapshot_entries : list (string * string)) : string :=
  "parent: " +:+ parent +:+ endl +:+
  "message: " +:+ message +:+ endl +:+
  String.concat "" (map file_entry_line snapshot_entries).


(** The two lines [log] prints for a commit. *)
Definition log_entry (commitHash message : string) : list event :=
  [Out ("commit " +:+ commitHash +:+ endl);
   Out ("    " +:+ message +:+ endl +:+ endl)].

(** [history w start hs last]: following parent links from [start], the
    walk of [log] finds the objects of the commits [hs] (hash and message,
    youngest first) and then arrives at the hash [last]. *)
Inductive history (w : world) : string → list (string * string) → string → Prop :=
  | history_end h : history w h [] h
  | history_step h text parentHash message hs last :
      h ≠ "" →
      fs w !! Object h = Some (File text) →
      foldl log_line ("", "") (getlines text) = (parentHash, message) →
      history w parentHash hs last →
      history w h ((h, message) :: hs) last.

(** The world after the three writes of a commit that meets no fault. *)
Definition committed (commitHash commitString message : string) (w : world)
  : world :=
  World (<[INDEX_FILE := File ""]>
           (<[HEAD_FILE := File commitHash]>
              (<[Object commitHash := File commitString]> (fs w))))
        (trace w ++ [Wrote (Object commitHash) commitString;
                     Wrote HEAD_FILE commitHash;
                     Wrote INDEX_FILE "";
                     Out ("Committed [" +:+ commitHash +:+ "] "
                          +:+ message +:+ endl)]).

(** Console output, as opposed to file-system events. *)
Definition is_console (e : event) : bool :=
  match e with
  | Out _ | Err _ => true
  | _ => false
  end.

(** The line the program prints about the argument [filename] of [add]
    when it comes to it in a world [w] (for a file that cannot be read,
    the line is printed by [main], and the batch ends there). *)
Definition add_report (resolve : string → path) (w : world)
    (filename : string) : event :=
  match fs w !! resolve filename with
  | None => Err ("File not found: " +:+ filename +:+ ". Skipping." +:+ endl)
  | Some Dir =>
      Err ("Cannot add directories: " +:+ filename +:+ ". Skipping." +:+ endl)
  | Some (File _) => Out ("Staged " +:+ filename +:+ endl)
  | Some Unreadable =>
      Err ("Error: Could not open file: " +:+ filename +:+ endl)
  end.

(** What the loop of [getCommitFiles] collects from the two header lines of
    a commit object. *)
Definition header_files (parentCommit message : string) : gmap string string :=
  foldl commit_file_line ∅
    (getlines ("parent: " +:+ parentCommit +:+ endl +:+
               "message: " +:+ message +:+ endl)).

(** *** Further vocabulary *)

(** The digits [std::hex] prints. *)
Definition hex_digit (c : ascii) : bool :=
  match c with
  | "0" | "1" | "2" | "3" | "4" | "5" | "6" | "7" | "8" | "9"
  | "a" | "b" | "c" | "d" | "e" | "f" => true
  | _ => false
  end%char.

(** HEAD is empty or names an object that is in the store. *)
Definition head_valid (w : world) : Prop :=
  ∀ h, getHEAD w = (Ok h, w) → h = "" ∨ is_Some (fs w !! Object h).

(** Only the console was written to. *)
Definition console_only (evs : list event) : Prop :=
  Forall (λ e, is_console e = true) evs.

(** How a command may change a world: working files keep their node,
    no path disappears, an object that was not there before is some
    content under its own hash, and the trace is extended. *)
Definition evolves (hasher : string → N) (w w' : world) : Prop :=
  (∀ f, fs w' !! WorkFile f = fs w !! WorkFile f) ∧
  (∀ p, is_Some (fs w !! p) → is_Some (fs w' !! p)) ∧
  (∀ h blob, fs w' !! Object h = Some blob →
     fs w !! Object h = Some blob ∨
     ∃ c, blob = File c ∧ h = hashString hasher c) ∧
  (∃ evs, trace w' = trace w ++ evs).

(** Every run of [m] relates the world it starts in to the world it
    ends in by [R], whether it returns or throws. *)
Definition keeps {A} (R : relation world) (m : M A) : Prop :=
  ∀ w r w', m w = (r, w') → R w w'.

(** [evolves], and HEAD is as before or holds a hash that is empty or
    names an object of the new store. *)
Definition head_kept (hasher : string → N) (w w' : world) : Prop :=
  evolves hasher w w' ∧
  (fs w' !! HEAD_FILE = fs w !! HEAD_FILE ∨
   ∃ h, fs w' !! HEAD_FILE = Some (File h) ∧
        (h = "" ∨ is_Some (fs w' !! Object h))).

(** The effect of [setStagingArea] with the empty mapping: the index is
    emptied when it can be opened, and left alone otherwise. *)
Definition index_cleared (can_write : path → bool) (w : world) : world :=
  if can_write INDEX_FILE
  then World (<[INDEX_FILE := File ""]> (fs w))
             (trace w ++ [Wrote INDEX_FILE ""])
  else w.

(** ** Sample repositories

  FNV-1a on 64 bits stands in for [std::hash]; [writable] lets every path
  be written, [store_locked] none below [.minigit/objects]. *)
Module Sample.

Fixpoint fnv1a_go (h : N) (s : string) : N :=
  match s with
  | "" => h
  | String c s' =>
      fnv1a_go (N.modulo (N.mul (N.lxor h (N_of_ascii c)) 1099511628211)
                         (2 ^ 64)) s'
  end.

Definition fnv1a (s : string) : N := fnv1a_go 14695981039346656037 s.

Definition writable (p : path) : bool := true.

(** Names are taken as they are written: the five spellings below denote
    the files of the repository, every other name a file outside it. *)
Definition by_name (filename : string) : path :=
  if String.eqb filename ".minigit" then GIT_DIR
  else if String.eqb filename ".minigit/objects" then OBJECTS_DIR
  else if String.eqb filename ".minigit/HEAD" then HEAD_FILE
  else if String.eqb filename ".minigit/index" then INDEX_FILE
  else if starts_with ".minigit/objects/" filename
       then Object (substr 17 filename)
       else WorkFile filename.

(** An environment in which the object store cannot be written. *)
Definition store_locked (p : path) : bool :=
  match p with
  | Object _ => false
  | _ => true
  end.

Definition run {A} (m : M A) (w : world) : world := (m w).2.

(** A freshly initialised repository next to three files (two of them
    with the same content) and a directory. *)
Definition fresh : world :=
  World (<[GIT_DIR := Dir]> (<[OBJECTS_DIR := Dir]>
         (<[HEAD_FILE := File ""]> (<[INDEX_FILE := File ""]>
         (<[WorkFile "a.txt" := File "hello"]>
         (<[WorkFile "b.txt" := File "world"]>
         (<[WorkFile "copy.txt" := File "hello"]>
         (<[WorkFile "docs" := Dir]> ∅))))))))
        [].

(** [fresh] after [minigit add a.txt]. *)
Definition staged_a : world := run (add fnv1a writable by_name ["a.txt"]) fresh.

(** [fresh] after [minigit add a.txt nope docs b.txt]. *)
Definition batch_added : world :=
  run (add fnv1a writable by_name ["a.txt"; "nope"; "docs"; "b.txt"]) fresh.

(** A repository whose HEAD names a commit whose parent is not in the
    store. *)
Definition orphaned : world :=
  World (<[GIT_DIR := Dir]> (<[OBJECTS_DIR := Dir]>
         (<[HEAD_FILE := File "c2"]> (<[INDEX_FILE := File ""]>
         (<[Object "c2" := File ("parent: c1" +:+ endl +:+
                                 "message: second" +:+ endl +:+
                                 "file: a.txt a430d84680aabd0b" +:+ endl)]>
          ∅)))))
        [].

(** A repository in which [my] is staged, next to a working file whose
    name has a blank in it. *)
Definition spaced : world :=
  run (add fnv1a writable by_name ["my"])
    (World (<[GIT_DIR := Dir]> (<[OBJECTS_DIR := Dir]>
            (<[HEAD_FILE := File ""]> (<[INDEX_FILE := File ""]>
            (<[WorkFile "my" := File "notes"]>
            (<[WorkFile "my file" := File "x"]> ∅))))))
           []).

(** A store with an object that has none of the lines of a commit. *)
Definition garbled : world :=
  World (<[GIT_DIR := Dir]> (<[OBJECTS_DIR := Dir]>
         (<[HEAD_FILE := File "c0ffee"]> (<[INDEX_FILE := File ""]>
         (<[Object "c0ffee" := File "not a commit at all"]> ∅)))))
        [].

(** An environment in which the index cannot be written. *)
Definition index_locked (p : path) : bool :=
  match p with
  | INDEX_FILE => false
  | _ => true
  end.

(** A directory with one file that is not a repository. *)
Definition bare : world :=
  World (<[WorkFile "a.txt" := File "hello"]> ∅) [].

(** A repository with two commits. *)
Definition two_commits : world :=
  World (<[GIT_DIR := Dir]> (<[OBJECTS_DIR := Dir]>
         (<[HEAD_FILE := File "c2"]> (<[INDEX_FILE := File ""]>
         (<[Object "c2" := File ("parent: c1" +:+ endl +:+
                                 "message: second" +:+ endl +:+
                                 "file: a.txt a430d84680aabd0b" +:+ endl)]>
         (<[Object "c1" := File ("parent: " +:+ endl +:+
                                 "message: first" +:+ endl +:+
                                 "file: a.txt a430d84680aabd0b" +:+ endl)]>
          ∅))))))
        [].

(** A store in which the parent links run in a circle. *)
Definition circular : world :=
  World (<[GIT_DIR := Dir]> (<[OBJECTS_DIR := Dir]>
         (<[HEAD_FILE := File "c2"]> (<[INDEX_FILE := File ""]>
         (<[Object "c2" := File ("parent: c1" +:+ endl +:+
                                 "message: second" +:+ endl)]>
         (<[Object "c1" := File ("parent: c2" +:+ endl +:+
                                 "message: first" +:+ endl)]>
          ∅))))))
        [].

(** A repository with [a.txt] staged whose HEAD names an object that is
    not in the store. *)
Definition dangling : world :=
  World (<[GIT_DIR := Dir]> (<[OBJECTS_DIR := Dir]>
         (<[HEAD_FILE := File "gone"]>
         (<[INDEX_FILE := File ("a.txt a430d84680aabd0b" +:+ endl)]> ∅))))
        [].

(** [staged_a] after [a.txt] got another text. *)
Definition edited_a : world :=
  World (<[WorkFile "a.txt" := File "changed"]> (fs staged_a))
        (trace staged_a).

(** An environment in which HEAD cannot be written. *)
Definition head_locked (p : path) : bool :=
  match p with
  | HEAD_FILE => false
  | _ => true
  end.

(** [fresh] with an object that sits under the hash of "hello" and holds
    another text. *)
Definition mislabelled : world :=
  World (<[Object "a430d84680aabd0b" := File "other text"]> (fs fresh)) [].

(** [staged_a] after [minigit commit -m first] and [minigit add b.txt]. *)
Definition second_staged : world :=
  run (add fnv1a writable by_name ["b.txt"])
    (run (commit fnv1a writable "first") staged_a).

(** [second_staged] after [minigit commit -m second] and
    [minigit add a.txt]. *)
Definition third_staged : world :=
  run (add fnv1a writable by_name ["a.txt"])
    (run (commit fnv1a writable "second") second_staged).

(** A repository with an object and a working file that cannot be read,
    and a directory in the place of an object. *)
Definition damaged : world :=
  World (<[GIT_DIR := Dir]> (<[OBJECTS_DIR := Dir]>
         (<[HEAD_FILE := File ""]> (<[INDEX_FILE := File ""]>
         (<[Object "c3" := Unreadable]>
         (<[Object "c4" := Dir]>
         (<[WorkFile "a.txt" := File "hello"]>
         (<[WorkFile "secret.txt" := Unreadable]> ∅))))))))
        [].

End Sample.

(** * Properties *)

(** ** Text *)

Lemma app_nil_l (s : string) : "" +:+ s = s.
Proof. reflexivity. Qed.

Lemma app_cons (c : ascii) (s t : string) :
  String c s +:+ t = String c (s +:+ t).
Proof. reflexivity. Qed.

Lemma app_nil_r (s : string) : s +:+ "" = s.
Proof. induction s as [|c s IH]; [done|]. by rewrite app_cons, IH. Qed.

Lemma app_assoc' (s t u : string) : (s +:+ t) +:+ u = s +:+ t +:+ u.
Proof. induction s as [|c s IH]; [done|]. by rewrite !app_cons, IH. Qed.

Lemma is_word_one_line s : is_word s = true → one_line s = true.
Proof.
  unfold is_word, one_line. intros [_ H]%andb_true_iff. revert H.
  induction s as [|c s IH]; simpl; [done|].
  intros [Hc Hs]%andb_true_iff. rewrite IH by done.
  destruct (Ascii.eqb_spec c newline) as [->|]; [done|]. done.
Qed.

Lemma one_line_app s t :
  one_line (s +:+ t) = one_line s && one_line t.
Proof.
  unfold one_line. induction s as [|c s IH]; [done|].
  rewrite app_cons. simpl. by rewrite IH, andb_assoc.
Qed.

(** [getline] hands back a line that was written with a final ['\n']. *)
Lemma getlines_line (l rest : string) :
  one_line l = true → getlines (l +:+ endl +:+ rest) = l :: getlines rest.
Proof.
  unfold one_line. induction l as [|c l IH]; [done|].
  cbn [all_chars]. intros [Hc Hl]%andb_true_iff.
  rewrite app_cons. cbn [getlines].
  destruct (Ascii.eqb c newline); [done|]. by rewrite IH.
Qed.

Lemma getlines_newline_nonempty (s : string) : getlines (s +:+ endl) ≠ [].
Proof.
  induction s as [|c s IH]; [done|]. rewrite app_cons. cbn [getlines].
  destruct (Ascii.eqb c newline); [done|].
  by destruct (getlines (s +:+ endl)).
Qed.

(** A text that ends a line splits there. *)
Lemma getlines_app_newline (s t : string) :
  getlines (s +:+ endl +:+ t) = getlines (s +:+ endl) ++ getlines t.
Proof.
  induction s as [|c s IH]; [done|]. rewrite !app_cons. cbn [getlines].
  destruct (Ascii.eqb c newline); [by rewrite IH|].
  rewrite IH. pose proof (getlines_newline_nonempty s).
  by destruct (getlines (s +:+ endl)).
Qed.

Lemma read_word_spaces (s : string) (c : ascii) (r : string) :
  all_chars (λ c, negb (isspace c)) s = true → isspace c = true →
  read_word (s +:+ String c r) = (s, String c r).
Proof.
  intros Hs Hc. induction s as [|a s IH].
  - rewrite app_nil_l. simpl. by rewrite Hc.
  - simpl in Hs. apply andb_true_iff in Hs as [Ha Hs].
    rewrite app_cons. cbn [read_word].
    destruct (isspace a); [done|]. by rewrite IH.
Qed.

Lemma read_word_all (s : string) :
  all_chars (λ c, negb (isspace c)) s = true → read_word s = (s, "").
Proof.
  induction s as [|a s IH]; simpl; [done|].
  intros [Ha Hs]%andb_true_iff. destruct (isspace a); [done|]. by rewrite IH.
Qed.

Lemma skip_ws_word (s r : string) :
  is_word s = true → skip_ws (s +:+ r) = s +:+ r.
Proof.
  unfold is_word. destruct s as [|a s]; [done|]. simpl.
  intros [Ha _]%andb_true_iff. rewrite app_cons. cbn [skip_ws].
  by destruct (isspace a).
Qed.

Lemma extract_word_space (s r : string) :
  is_word s = true → extract (s +:+ " " +:+ r) = Some (s, " " +:+ r).
Proof.
  intros Hs. unfold extract. rewrite skip_ws_word by done.
  pose proof Hs as [Hne Hall]%andb_true_iff.
  change (" " +:+ r) with (String " " r).
  rewrite read_word_spaces by done. by destruct s.
Qed.

Lemma extract_space_word (s : string) :
  is_word s = true → extract (" " +:+ s) = Some (s, "").
Proof.
  intros Hs. unfold extract. change (" " +:+ s) with (String " " s).
  change (skip_ws (String " " s)) with (skip_ws s).
  replace (skip_ws s) with s
    by (by rewrite <-(app_nil_r s) at 2; rewrite skip_ws_word, app_nil_r).
  pose proof Hs as [Hne Hall]%andb_true_iff.
  rewrite read_word_all by done. by destruct s.
Qed.

(** A record [<filename> <hash>] is read back as written when both fields
    are words. *)
Lemma extract2_record (f h : string) :
  is_word f = true → is_word h = true →
  extract2 (f +:+ " " +:+ h) = Some (f, h).
Proof.
  intros Hf Hh. unfold extract2.
  rewrite extract_word_space by done. by rewrite extract_space_word.
Qed.

Lemma read_word_word (s w r : string) :
  read_word s = (w, r) → all_chars (λ c, negb (isspace c)) w = true.
Proof.
  revert w r. induction s as [|a s IH]; simpl; intros w r.
  - by intros [= <- <-].
  - destruct (isspace a) eqn:Ha; [by intros [= <- <-]|].
    destruct (read_word s) as [w' r'] eqn:E. intros [= <- <-]. simpl.
    rewrite Ha. simpl. by eapply IH.
Qed.

(** Whatever [operator>>] extracts is a word. *)
Lemma extract_is_word (s w r : string) :
  extract s = Some (w, r) → is_word w = true.
Proof.
  unfold extract. destruct (read_word (skip_ws s)) as [w' r'] eqn:E.
  destruct w' as [|a w']; [done|]. intros [= <- <-].
  unfold is_word. simpl. by apply read_word_word in E.
Qed.

Lemma extract2_is_word (s f h : string) :
  extract2 s = Some (f, h) → is_word f = true ∧ is_word h = true.
Proof.
  unfold extract2. destruct (extract s) as [[f' r]|] eqn:E1; [|done].
  destruct (extract r) as [[h' r']|] eqn:E2; [|done]. intros [= <- <-].
  eauto using extract_is_word.
Qed.

(** ** Maps and their iteration order *)

Lemma entries_perm (m : gmap string string) : entries m ≡ₚ map_to_list m.
Proof. apply merge_sort_Permutation. Qed.

Lemma entries_NoDup (m : gmap string string) : NoDup (entries m).*1.
Proof. rewrite entries_perm. apply NoDup_fst_map_to_list. Qed.

Lemma elem_of_entries (m : gmap string string) f h :
  (f, h) ∈ entries m ↔ m !! f = Some h.
Proof. rewrite entries_perm. apply elem_of_map_to_list. Qed.

#[global] Instance key_le_trans : Transitive key_le.
Proof. intros x y z. unfold key_le. apply transitivity. Qed.

#[global] Instance key_le_total : Total key_le.
Proof. intros x y. unfold key_le. apply total, _. Qed.

(** Iteration is in sorted key order. *)
Lemma entries_sorted (m : gmap string string) :
  StronglySorted key_le (entries m).
Proof. apply StronglySorted_merge_sort; apply _. Qed.

Lemma list_to_map_entries (m : gmap string string) :
  list_to_map (entries m) = m.
Proof.
  rewrite (list_to_map_proper _ (map_to_list m)).
  - apply list_to_map_to_list.
  - apply entries_NoDup.
  - apply entries_perm.
Qed.

(** Assigning the pairs of a duplicate-free list one after the other
    overrides the base map with them. *)
Lemma foldl_assign (l : list (string * string)) (base : gmap string string) :
  NoDup l.*1 →
  foldl (λ files pair, <[pair.1 := pair.2]> files) base l
  = list_to_map l ∪ base.
Proof.
  revert base. induction l as [|[k v] l IH]; intros base Hnd.
  - by rewrite list_to_map_nil, (left_id_L ∅ (∪)).
  - rewrite fmap_cons in Hnd. apply NoDup_cons in Hnd as [Hk Hnd].
    cbn [foldl fst snd]. rewrite IH by done.
    rewrite list_to_map_cons, <-insert_union_l. symmetry.
    apply insert_union_r. by apply not_elem_of_list_to_map_1.
Qed.

Lemma merge_staged_union (inherited stagedFiles : gmap string string) :
  merge_staged inherited stagedFiles = stagedFiles ∪ inherited.
Proof.
  unfold merge_staged. rewrite foldl_assign by apply entries_NoDup.
  by rewrite list_to_map_entries.
Qed.

(** Entry by entry: a staged file overrides, any other file is inherited. *)
Lemma merge_staged_lookup (inherited stagedFiles : gmap string string) f :
  merge_staged inherited stagedFiles !! f
  = match stagedFiles !! f with
    | Some h => Some h
    | None => inherited !! f
    end.
Proof.
  rewrite merge_staged_union, lookup_union.
  destruct (stagedFiles !! f), (inherited !! f); done.
Qed.

(** ** Reading back what was written *)

Lemma record_one_line pair :
  record_ok pair → one_line (pair.1 +:+ " " +:+ pair.2) = true.
Proof.
  intros [H1 H2]. rewrite !one_line_app.
  by rewrite (is_word_one_line _ H1), (is_word_one_line _ H2).
Qed.

Lemma read_index_records (l : list (string * string)) base :
  Forall record_ok l →
  foldl index_line base
    (getlines (foldr (λ pair text,
                        pair.1 +:+ " " +:+ pair.2 +:+ endl +:+ text) "" l))
  = foldl (λ files pair, <[pair.1 := pair.2]> files) base l.
Proof.
  intros Hl. revert base. induction Hl as [|p l Hp Hl IH]; intros base; [done|].
  cbn [foldr foldl].
  rewrite <-!app_assoc', (app_assoc' (p.1)), (app_assoc' (p.1 +:+ " " +:+ p.2)).
  rewrite getlines_line; [|by apply record_one_line].
  cbn [foldl]. rewrite IH. f_equal.
  unfold index_line. destruct Hp. by rewrite extract2_record.
Qed.

Lemma read_commit_records (l : list (string * string)) base :
  Forall record_ok l →
  foldl commit_file_line base
    (getlines (foldr (λ pair text,
         "file: " +:+ pair.1 +:+ " " +:+ pair.2 +:+ endl +:+ text) "" l))
  = foldl (λ files pair, <[pair.1 := pair.2]> files) base l.
Proof.
  intros Hl. revert base. induction Hl as [|p l Hp Hl IH]; intros base; [done|].
  cbn [foldr foldl].
  replace ("file: " +:+ p.1 +:+ " " +:+ p.2 +:+ endl +:+
           foldr (λ pair text,
             "file: " +:+ pair.1 +:+ " " +:+ pair.2 +:+ endl +:+ text) "" l)
    with (("file: " +:+ p.1 +:+ " " +:+ p.2) +:+ endl +:+
           foldr (λ pair text,
             "file: " +:+ pair.1 +:+ " " +:+ pair.2 +:+ endl +:+ text) "" l)
    by by rewrite !app_assoc'.
  rewrite getlines_line.
  - cbn [foldl]. rewrite IH. f_equal.
    unfold commit_file_line.
    change (starts_with "file: " ("file: " +:+ p.1 +:+ " " +:+ p.2)) with true.
    change (substr 6 ("file: " +:+ p.1 +:+ " " +:+ p.2))
      with (p.1 +:+ " " +:+ p.2).
    cbv iota. destruct Hp. by rewrite extract2_record.
  - rewrite one_line_app. by rewrite record_one_line.
Qed.

Lemma words_only_entries (m : gmap string string) :
  words_only m → Forall record_ok (entries m).
Proof.
  intros Hm. apply Forall_forall. intros [f h] Hin.
  apply elem_of_entries in Hin. by apply Hm.
Qed.

Lemma words_only_empty : words_only ∅.
Proof. intros f h. by rewrite lookup_empty. Qed.

Lemma words_only_insert m f h :
  is_word f = true → is_word h = true → words_only m →
  words_only (<[f := h]> m).
Proof.
  intros Hf Hh Hm f' h'. rewrite lookup_insert. case_decide; [|apply Hm].
  by intros [= <-]; subst.
Qed.

Lemma words_only_union m1 m2 :
  words_only m1 → words_only m2 → words_only (m1 ∪ m2).
Proof.
  intros H1 H2 f h [?|[_ ?]]%lookup_union_Some_raw; eauto.
Qed.

Lemma index_lines_words (lines : list string) base :
  words_only base → words_only (foldl index_line base lines).
Proof.
  revert base. induction lines as [|l lines IH]; intros base Hb; [done|].
  simpl. apply IH. unfold index_line.
  destruct (extract2 l) as [[f h]|] eqn:E; [|done].
  apply extract2_is_word in E as []. by apply words_only_insert.
Qed.

Lemma commit_lines_words (lines : list string) base :
  words_only base → words_only (foldl commit_file_line base lines).
Proof.
  revert base. induction lines as [|l lines IH]; intros base Hb; [done|].
  simpl. apply IH. unfold commit_file_line.
  destruct (starts_with _ l); [|done].
  destruct (extract2 _) as [[f h]|] eqn:E; [|done].
  apply extract2_is_word in E as []. by apply words_only_insert.
Qed.

(** The index text of a map of words reads back as that map. *)
Lemma read_index_text (m : gmap string string) :
  words_only m → foldl index_line ∅ (getlines (index_text m)) = m.
Proof.
  intros Hm. unfold index_text.
  rewrite read_index_records; [|by apply words_only_entries].
  rewrite foldl_assign by apply entries_NoDup.
  by rewrite list_to_map_entries, (right_id_L ∅ (∪)).
Qed.

(** Hexadecimal digits are words. *)
Lemma of_pos_word (p : positive) (rest : string) :
  all_chars (λ c, negb (isspace c)) rest = true →
  all_chars (λ c, negb (isspace c)) (HexString.Raw.of_pos p rest) = true
  ∧ HexString.Raw.of_pos p rest ≠ "".
Proof.
  revert p rest. fix IH 1. intros p rest Hrest.
  do 4 try destruct p as [p|p|]; cbn [HexString.Raw.of_pos];
    try (apply IH); try (split; [by cbn; rewrite ?Hrest | done]);
    by cbn; rewrite ?Hrest.
Qed.

(** ** The program *)

Section Properties.

Variable hasher : string → N.
Variable can_write : path → bool.
Variable resolve : string → path.
Variable absolute_git_dir : string.
Variable fs_error_what : path → string.

Abbreviation hashString := (hashString hasher).
Abbreviation writeFileContent := (writeFileContent can_write).
Abbreviation setStagingArea := (setStagingArea can_write).
Abbreviation setHEAD := (setHEAD can_write).
Abbreviation add_file := (add_file hasher can_write resolve).
Abbreviation add := (add hasher can_write resolve).
Abbreviation commit := (commit hasher can_write).
Abbreviation main :=
  (main hasher can_write resolve absolute_git_dir fs_error_what).
Abbreviation content_addressed := (content_addressed hasher).
Abbreviation collision_free := (collision_free hasher).
Abbreviation add_grows := (add_grows hasher resolve).
Abbreviation add_report := (add_report resolve).

Lemma hashString_word (content : string) : is_word (hashString content) = true.
Proof.
  unfold hashString. destruct (hasher content) as [|p]; [done|].
  destruct (of_pos_word p "" eq_refl) as [Hall Hne].
  unfold is_word. rewrite Hall.
  by destruct (HexString.Raw.of_pos p "").
Qed.

Lemma hashString_nonempty (content : string) : empty (hashString content) = false.
Proof.
  pose proof (hashString_word content) as [H _]%andb_true_iff.
  by apply negb_true_iff.
Qed.

(** The hexadecimal text determines the hash value. *)
Lemma hashString_to_N (content : string) :
  HexString.Raw.to_N (hashString content) 0 = hasher content.
Proof.
  unfold hashString. destruct (hasher content) as [|p]; [done|].
  by rewrite HexString.Raw.to_N_of_pos.
Qed.

Lemma hashString_ne (content : string) : hashString content ≠ "".
Proof.
  intros E. pose proof (hashString_nonempty content) as H.
  by rewrite E in H.
Qed.

(** *** Reading *)

Lemma getStagingArea_total (w : world) :
  ∃ stagedFiles, getStagingArea w = (Ok stagedFiles, w) ∧ words_only stagedFiles.
Proof.
  unfold getStagingArea, bind, exists_, ret.
  destruct (bool_decide _); simpl.
  - eexists; split; [done|]. apply index_lines_words, words_only_empty.
  - eexists; split; [done|]. apply words_only_empty.
Qed.

Lemma getStagingArea_file (w : world) (text : string) :
  fs w !! INDEX_FILE = Some (File text) →
  getStagingArea w = (Ok (foldl index_line ∅ (getlines text)), w).
Proof.
  intros H. unfold getStagingArea, bind, exists_, ifstream. rewrite H.
  rewrite bool_decide_eq_true_2 by eauto. simpl. by rewrite ?H.
Qed.

Lemma getStagingArea_absent (w : world) :
  fs w !! INDEX_FILE = None → getStagingArea w = (Ok ∅, w).
Proof.
  intros H. unfold getStagingArea, bind, exists_. rewrite H.
  rewrite bool_decide_eq_false_2 by (by intros []). simpl. by rewrite ?H.
Qed.

(** The staging area only depends on the index file. *)
Lemma getStagingArea_same_index (w1 w2 : world) stagedFiles :
  fs w2 !! INDEX_FILE = fs w1 !! INDEX_FILE →
  getStagingArea w1 = (Ok stagedFiles, w1) →
  getStagingArea w2 = (Ok stagedFiles, w2).
Proof.
  intros Heq. unfold getStagingArea, bind, exists_, ifstream, ret.
  rewrite Heq. destruct (bool_decide _); simpl; rewrite ?Heq; by intros [= <-].
Qed.

Lemma getStagingArea_words (w w' : world) stagedFiles :
  getStagingArea w = (Ok stagedFiles, w') → words_only stagedFiles.
Proof.
  destruct (getStagingArea_total w) as (m & -> & Hm). by intros [= <- _].
Qed.

Lemma getHEAD_file (w : world) (h : string) :
  fs w !! HEAD_FILE = Some (File h) → getHEAD w = (Ok h, w).
Proof.
  intros H. unfold getHEAD, bind, exists_, readFileContent, ifstream.
  rewrite H. rewrite bool_decide_eq_true_2 by eauto. simpl. by rewrite ?H.
Qed.

Lemma getHEAD_same (w1 w2 : world) r :
  fs w2 !! HEAD_FILE = fs w1 !! HEAD_FILE →
  getHEAD w1 = (r, w1) → getHEAD w2 = (r, w2).
Proof.
  intros Heq. unfold getHEAD, bind, exists_, readFileContent, ifstream, ret.
  rewrite Heq. destruct (bool_decide _); simpl; rewrite ?Heq; [|by intros [= <-]].
  destruct (fs w1 !! HEAD_FILE) as [[]|]; by intros [= <-].
Qed.

Lemma getCommitFiles_empty (w : world) : getCommitFiles "" w = (Ok ∅, w).
Proof. done. Qed.

Lemma getCommitFiles_missing (w : world) (commitHash : string) :
  commitHash ≠ "" → fs w !! Object commitHash = None →
  getCommitFiles commitHash w
  = (Throw ("Cannot find commit object: " +:+ commitHash), w).
Proof.
  intros Hne H. unfold getCommitFiles. destruct commitHash; [done|]. simpl.
  unfold bind, exists_. rewrite H.
  rewrite bool_decide_eq_false_2 by (by intros []). simpl. by rewrite ?H.
Qed.

Lemma getCommitFiles_file (w : world) (commitHash text : string) :
  commitHash ≠ "" → fs w !! Object commitHash = Some (File text) →
  getCommitFiles commitHash w
  = (Ok (foldl commit_file_line ∅ (getlines text)), w).
Proof.
  intros Hne H. unfold getCommitFiles. destruct commitHash; [done|]. simpl.
  unfold bind, exists_, readFileContent, ifstream. rewrite H.
  rewrite bool_decide_eq_true_2 by eauto. simpl. by rewrite ?H.
Qed.

Lemma getCommitFiles_pure (w w' : world) commitHash files :
  getCommitFiles commitHash w = (Ok files, w') → w' = w ∧ words_only files.
Proof.
  unfold getCommitFiles. destruct (empty commitHash).
  - intros [= <- <-]. split; [done|apply words_only_empty].
  - unfold bind, exists_, readFileContent, ifstream, throw, ret.
    destruct (bool_decide _); simpl; [|done].
    destruct (fs w !! Object commitHash) as [[text| |]|]; try done;
      intros [= <- <-]; (split; [done|]).
    + apply commit_lines_words, words_only_empty.
    + apply words_only_empty.
Qed.

Lemma getCommitFiles_same (w1 w2 : world) commitHash r :
  fs w2 !! Object commitHash = fs w1 !! Object commitHash →
  getCommitFiles commitHash w1 = (r, w1) →
  getCommitFiles commitHash w2 = (r, w2).
Proof.
  unfold getCommitFiles. destruct (empty commitHash); [by intros _ [= <-]|].
  intros Heq. unfold bind, exists_, readFileContent, ifstream, throw, ret.
  rewrite Heq. destruct (bool_decide _); simpl; rewrite ?Heq; [|by intros [= <-]].
  destruct (fs w1 !! Object commitHash) as [[text| |]|]; by intros [= <-].
Qed.

(** What [getCommitFiles] makes of the two header lines of a commit
    object: nothing, unless the parent or the message smuggles in a line
    that starts with "file: ". *)
Lemma header_files_one_line (parentCommit message : string) :
  one_line parentCommit = true → one_line message = true →
  header_files parentCommit message = ∅.
Proof.
  intros Hp Hm. unfold header_files.
  replace ("parent: " +:+ parentCommit +:+ endl +:+
           "message: " +:+ message +:+ endl)
    with (("parent: " +:+ parentCommit) +:+ endl +:+
          ("message: " +:+ message) +:+ endl +:+ "")
    by (by rewrite !app_assoc', app_nil_r).
  rewrite getlines_line; [|by rewrite one_line_app, Hp].
  rewrite getlines_line; [|by rewrite one_line_app, Hm].
  done.
Qed.

(** The file lines of a commit object come last: a map of words is read
    back from them on top of whatever the header yielded. *)
Lemma read_commit_text_header (parentCommit message : string) files :
  words_only files →
  foldl commit_file_line ∅
    (getlines (commit_text parentCommit message files))
  = files ∪ header_files parentCommit message.
Proof.
  intros Hf. unfold commit_text, header_files.
  replace ("parent: " +:+ parentCommit +:+ endl +:+
           "message: " +:+ message +:+ endl +:+
           foldr (λ pair text,
             "file: " +:+ pair.1 +:+ " " +:+ pair.2 +:+ endl +:+ text) ""
             (entries files))
    with (("parent: " +:+ parentCommit +:+ endl +:+ "message: " +:+ message)
          +:+ endl +:+
           foldr (λ pair text,
             "file: " +:+ pair.1 +:+ " " +:+ pair.2 +:+ endl +:+ text) ""
             (entries files))
    by (by rewrite !app_assoc').
  rewrite getlines_app_newline, foldl_app.
  rewrite read_commit_records; [|by apply words_only_entries].
  rewrite foldl_assign by apply entries_NoDup.
  rewrite list_to_map_entries. by rewrite !app_assoc'.
Qed.

(** The commit text of a map of words reads back as that map when the
    parent and the message are single lines. *)
Lemma read_commit_text (parentCommit message : string) files :
  one_line parentCommit = true → one_line message = true →
  words_only files →
  foldl commit_file_line ∅
    (getlines (commit_text parentCommit message files)) = files.
Proof.
  intros Hp Hm Hf. rewrite read_commit_text_header by done.
  by rewrite header_files_one_line, (right_id_L ∅ (∪)).
Qed.


(** *** [commit] *)

Lemma index_text_empty : index_text ∅ = "".
Proof. unfold index_text, entries. by rewrite map_to_list_empty. Qed.

(** Past the "nothing to commit" test and the resolution of the parent,
    [commit] is its four final statements. *)
Lemma commit_unfold (message : string) (w : world)
    stagedFiles parentCommit inherited :
  getStagingArea w = (Ok stagedFiles, w) → stagedFiles ≠ ∅ →
  getHEAD w = (Ok parentCommit, w) →
  getCommitFiles parentCommit w = (Ok inherited, w) →
  commit message w
  = (let commitString :=
       commit_text parentCommit message (merge_staged inherited stagedFiles) in
     let commitHash := hashString commitString in
     writeFileContent (Object commitHash) commitString ;;
     setHEAD commitHash ;;
     setStagingArea ∅ ;;
     cout ("Committed [" +:+ commitHash +:+ "] " +:+ message +:+ endl)) w.
Proof.
  intros Hs Hne Hh Hp. unfold commit. unfold bind at 1. rewrite Hs.
  destruct (decide (stagedFiles = ∅)) as [|_]; [done|].
  unfold bind at 1. rewrite Hh. unfold bind at 1.
  destruct (empty parentCommit) eqn:E; simpl.
  - destruct parentCommit; [|done]. rewrite getCommitFiles_empty in Hp.
    by injection Hp as <-.
  - by rewrite Hp.
Qed.

Lemma commit_run (message : string) (w : world)
    stagedFiles parentCommit inherited :
  getStagingArea w = (Ok stagedFiles, w) → stagedFiles ≠ ∅ →
  getHEAD w = (Ok parentCommit, w) →
  getCommitFiles parentCommit w = (Ok inherited, w) →
  let commitString :=
    commit_text parentCommit message (merge_staged inherited stagedFiles) in
  let commitHash := hashString commitString in
  can_write (Object commitHash) = true →
  can_write HEAD_FILE = true →
  can_write INDEX_FILE = true →
  commit message w = (Ok tt, committed commitHash commitString message w).
Proof.
  intros Hs Hne Hh Hp commitString commitHash Ho Hw Hi.
  rewrite (commit_unfold _ _ _ _ _ Hs Hne Hh Hp). cbv zeta.
  fold commitString commitHash.
  unfold bind, setHEAD, writeFileContent,
    setStagingArea, cout.
  rewrite Ho, Hw, Hi, index_text_empty.
  unfold committed, ofstream_write, emit. simpl.
  by rewrite <-!(assoc_L (++)).
Qed.


(** A commit that can write its object and HEAD succeeds; afterwards HEAD
    names the new object, and only these two files and the index may
    have changed. *)
Lemma commit_ok (message : string) (w : world)
    stagedFiles parentCommit inherited :
  getStagingArea w = (Ok stagedFiles, w) → stagedFiles ≠ ∅ →
  getHEAD w = (Ok parentCommit, w) →
  getCommitFiles parentCommit w = (Ok inherited, w) →
  let commitString :=
    commit_text parentCommit message (merge_staged inherited stagedFiles) in
  let commitHash := hashString commitString in
  can_write (Object commitHash) = true → can_write HEAD_FILE = true →
  ∃ w', commit message w = (Ok tt, w') ∧
    fs w' !! HEAD_FILE = Some (File commitHash) ∧
    fs w' !! Object commitHash = Some (File commitString) ∧
    (∀ p, p ≠ INDEX_FILE → p ≠ HEAD_FILE → p ≠ Object commitHash →
          fs w' !! p = fs w !! p).
Proof.
  intros Hs Hne Hh Hp commitString commitHash Ho Hw.
  rewrite (commit_unfold _ _ _ _ _ Hs Hne Hh Hp). cbv zeta.
  fold commitString commitHash.
  unfold bind, setHEAD, writeFileContent, setStagingArea, cout.
  rewrite Ho, Hw.
  destruct (can_write INDEX_FILE); (eexists; split; [done|]); simpl;
    (split; [by simplify_map_eq|split; [by simplify_map_eq|]]);
    intros p ???; by simplify_map_eq.
Qed.

Lemma commit_text_layout (parentCommit message : string) files :
  commit_text parentCommit message files
  = spec_commit_layout parentCommit message (entries files).
Proof.
  unfold commit_text, spec_commit_layout. do 5 f_equal.
  induction (entries files) as [|p l IH]; [done|].
  cbn [foldr map]. rewrite IH. unfold file_entry_line at 2.
  rewrite <-!app_assoc'.
  destruct l as [|q l]; [by rewrite !app_nil_r|done].
Qed.

(** C6. The object a commit stores is the text "parent: <parent>", then
    "message: <message>", then one "file: <filename> <hash>" line per
    entry of the snapshot, the entries taken in increasing filename
    order, each filename once; the object is stored under, and HEAD is
    set to, the hash of exactly this text.  The id is therefore a
    function of (parent, message, snapshot): a commit in any other world
    with the same three yields the same id. *)
Theorem commit_object_layout (message : string) (w : world)
    stagedFiles parentCommit inherited :
  getStagingArea w = (Ok stagedFiles, w) → stagedFiles ≠ ∅ →
  getHEAD w = (Ok parentCommit, w) →
  getCommitFiles parentCommit w = (Ok inherited, w) →
  let snapshot := merge_staged inherited stagedFiles in
  let text := spec_commit_layout parentCommit message (entries snapshot) in
  can_write (Object (hashString text)) = true → can_write HEAD_FILE = true →
  (∃ w', commit message w = (Ok tt, w') ∧
     fs w' !! Object (hashString text) = Some (File text) ∧
     getHEAD w' = (Ok (hashString text), w')) ∧
  StronglySorted key_le (entries snapshot) ∧
  NoDup (entries snapshot).*1 ∧
  (∀ f h, (f, h) ∈ entries snapshot ↔ snapshot !! f = Some h) ∧
  (∀ w2 staged2 inherited2,
     getStagingArea w2 = (Ok staged2, w2) → staged2 ≠ ∅ →
     getHEAD w2 = (Ok parentCommit, w2) →
     getCommitFiles parentCommit w2 = (Ok inherited2, w2) →
     merge_staged inherited2 staged2 = snapshot →
     ∃ w2', commit message w2 = (Ok tt, w2') ∧
            getHEAD w2' = (Ok (hashString text), w2')).
Proof.
  intros Hs Hne Hh Hp snapshot text Ho Hw.
  unfold text in *. rewrite <-commit_text_layout in *.
  split; [|split; [|split; [|split]]].
  - destruct (commit_ok message w _ _ _ Hs Hne Hh Hp Ho Hw)
      as (w' & Hc & Hhead & Hobj & _).
    exists w'. split; [done|]. split; [done|]. by apply getHEAD_file.
  - apply entries_sorted.
  - apply entries_NoDup.
  - intros f h. apply elem_of_entries.
  - intros w2 staged2 inherited2 Hs2 Hne2 Hh2 Hp2 Heq.
    fold snapshot in Ho. rewrite <-Heq in Ho.
    destruct (commit_ok message w2 _ _ _ Hs2 Hne2 Hh2 Hp2 Ho Hw)
      as (w' & Hc & Hhead & _).
    exists w'. split; [done|]. rewrite Heq in Hhead. by apply getHEAD_file.
Qed.

(** C1 (amended). A commit with a non-empty staging area records as its
    snapshot the parent's snapshot (the empty mapping when HEAD is empty)
    with every staged entry inserted or overwritten by filename: this
    mapping is what the stored commit object lists, and every entry of it
    is what [getCommitFiles] resolves for the new commit afterwards.
    When the message and the text of HEAD are single lines, the resolved
    snapshot is exactly this mapping; a further line of the message that
    starts with "file: " is read back as an entry of its own.  In every
    case a second commit, made on top of it with only [B] staged,
    resolves to a snapshot that holds [B] and still every file [A] of
    the first commit. *)
Theorem commit_snapshot_merge (message : string) (w : world)
    stagedFiles parentCommit inherited :
  getStagingArea w = (Ok stagedFiles, w) → stagedFiles ≠ ∅ →
  getHEAD w = (Ok parentCommit, w) →
  getCommitFiles parentCommit w = (Ok inherited, w) →
  (∀ h, can_write (Object h) = true) → can_write HEAD_FILE = true →
  ∃ w' commitHash snapshot resolved,
    commit message w = (Ok tt, w') ∧
    getHEAD w' = (Ok commitHash, w') ∧
    fs w' !! Object commitHash
    = Some (File (commit_text parentCommit message snapshot)) ∧
    (parentCommit = "" → inherited = ∅) ∧
    (∀ f, snapshot !! f = match stagedFiles !! f with
                          | Some h => Some h
                          | None => inherited !! f
                          end) ∧
    getCommitFiles commitHash w' = (Ok resolved, w') ∧
    (∀ f h, snapshot !! f = Some h → resolved !! f = Some h) ∧
    (one_line parentCommit = true → one_line message = true →
     resolved = snapshot) ∧
    (∀ message2 w2 B hB,
       getHEAD w2 = (Ok commitHash, w2) →
       fs w2 !! Object commitHash = fs w' !! Object commitHash →
       getStagingArea w2 = (Ok {[B := hB]}, w2) →
       ∃ w3 commitHash2 resolved2,
         commit message2 w2 = (Ok tt, w3) ∧
         getHEAD w3 = (Ok commitHash2, w3) ∧
         getCommitFiles commitHash2 w3 = (Ok resolved2, w3) ∧
         resolved2 !! B = Some hB ∧
         (∀ A hA, stagedFiles !! A = Some hA → A ≠ B →
                  resolved2 !! A = Some hA)).
Proof.
  assert (Hstep : ∀ message w stagedFiles parentCommit inherited,
    getStagingArea w = (Ok stagedFiles, w) → stagedFiles ≠ ∅ →
    getHEAD w = (Ok parentCommit, w) →
    getCommitFiles parentCommit w = (Ok inherited, w) →
    (∀ h, can_write (Object h) = true) → can_write HEAD_FILE = true →
    ∃ w' commitHash,
      commit message w = (Ok tt, w') ∧
      getHEAD w' = (Ok commitHash, w') ∧
      fs w' !! Object commitHash
      = Some (File (commit_text parentCommit message
                      (merge_staged inherited stagedFiles))) ∧
      getCommitFiles commitHash w'
      = (Ok (merge_staged inherited stagedFiles
             ∪ header_files parentCommit message), w')).
  { clear. intros message w stagedFiles parentCommit inherited
      Hs Hne Hh Hp Ho Hw.
    destruct (commit_ok message w _ _ _ Hs Hne Hh Hp (Ho _) Hw)
      as (w' & Hc & Hhead & Hobj & _).
    eexists w', _. split; [done|]. split; [by apply getHEAD_file|].
    split; [done|].
    rewrite (getCommitFiles_file _ _ _ (hashString_ne _) Hobj).
    rewrite read_commit_text_header; [done|].
    rewrite merge_staged_union. apply words_only_union.
    - by eapply getStagingArea_words.
    - by eapply getCommitFiles_pure. }
  intros Hs Hne Hh Hp Ho Hw.
  destruct (Hstep message w _ _ _ Hs Hne Hh Hp Ho Hw)
    as (w' & commitHash & Hc & Hhead & Hobj & Hsnap).
  exists w', commitHash, (merge_staged inherited stagedFiles),
    (merge_staged inherited stagedFiles ∪ header_files parentCommit message).
  split; [done|]. split; [done|]. split; [done|].
  split; [|split; [|split; [|split; [|split]]]].
  - intros ->. rewrite getCommitFiles_empty in Hp. by injection Hp as <-.
  - apply merge_staged_lookup.
  - done.
  - intros f h Hf. by apply lookup_union_Some_l.
  - intros Hpl Hml. by rewrite header_files_one_line, (right_id_L ∅ (∪)).
  - intros message2 w2 B hB Hh2 Hobj2 Hs2.
    assert (Hp2 : getCommitFiles commitHash w2
                  = (Ok (merge_staged inherited stagedFiles
                         ∪ header_files parentCommit message), w2))
      by (by eapply getCommitFiles_same).
    destruct (Hstep message2 w2 _ _ _ Hs2 ltac:(apply insert_non_empty)
                Hh2 Hp2 Ho Hw)
      as (w3 & commitHash2 & Hc2 & Hhead2 & _ & Hsnap2).
    eexists w3, commitHash2, _. split; [done|]. split; [done|].
    split; [done|]. split.
    + apply lookup_union_Some_l.
      by rewrite merge_staged_lookup, lookup_singleton_eq.
    + intros A hA HA Hne2. apply lookup_union_Some_l.
      rewrite merge_staged_lookup, lookup_singleton_ne by done.
      apply lookup_union_Some_l. by rewrite merge_staged_lookup, HA.
Qed.

(** C4. With an empty staging area, [commit] only prints "Nothing to
    commit, working tree clean.": the file system (HEAD, the index and
    the object store with it) is left as it was, and [minigit commit -m
    <message>] run in a repository exits with status 0. *)
Theorem commit_nothing_staged (fuel : nat) (prog message : string) (w : world) :
  repoExists w = (Ok true, w) →
  getStagingArea w = (Ok ∅, w) →
  ∃ w', commit message w = (Ok tt, w') ∧
        main fuel [prog; "commit"; "-m"; message] w = Some (0%Z, w') ∧
        fs w' = fs w ∧
        trace w' = trace w ++
          [Out ("Nothing to commit, working tree clean." +:+ endl)].
Proof.
  intros Hrepo Hs.
  assert (Hc : commit message w
               = (Ok tt, emit (Out ("Nothing to commit, working tree clean."
                                    +:+ endl)) w)).
  { unfold commit. unfold bind at 1. rewrite Hs.
    by destruct (decide (∅ = ∅)). }
  eexists. split; [exact Hc|]. split; [|done].
  unfold main, dispatch. simpl.
  unfold bind at 1. rewrite Hrepo. simpl.
  unfold bind at 1. by rewrite Hc.
Qed.


(** *** The staging index *)

Lemma setStagingArea_run (stagedFiles : gmap string string) (w : world) :
  can_write INDEX_FILE = true →
  setStagingArea stagedFiles w
  = (Ok tt, ofstream_write INDEX_FILE (index_text stagedFiles) w).
Proof. intros H. unfold setStagingArea. by rewrite H. Qed.


(** *** [log] *)

Lemma log_loop_history (w : world) start hs missing :
  history w start hs missing → missing ≠ "" →
  fs w !! Object missing = None →
  ∀ fuel t, length hs < fuel →
    log_loop fuel start (World (fs w) t)
    = Some (Ok tt,
            World (fs w)
              (t ++ flat_map (λ e, log_entry e.1 e.2) hs
                 ++ [Err ("Fatal: Missing commit object "
                          +:+ missing +:+ endl)])).
Proof.
  intros Hh Hne Hmiss.
  induction Hh as [h|h text parentHash message hs last Hh Hobj Hparse Hrest IH];
    intros fuel t Hfuel.
  - destruct fuel as [|fuel]; [simpl in Hfuel; lia|].
    destruct h as [|a h]; [done|]. cbn [log_loop empty fs].
    rewrite Hmiss. done.
  - destruct fuel as [|fuel]; [simpl in Hfuel; lia|].
    destruct h as [|a h]; [done|]. cbn [log_loop empty fs].
    rewrite Hobj. unfold readFileContent, ifstream. cbn [fs]. rewrite Hobj.
    rewrite Hparse. unfold emit. cbn [fs trace].
    rewrite (IH Hne Hmiss) by (simpl in Hfuel; lia).
    cbn [flat_map log_entry fst snd].
    do 3 f_equal. by rewrite <-!(assoc_L (++)).
Qed.


(** When the walk reaches a root commit, [log] prints every commit of the
    history and ends. *)
Lemma log_loop_complete (w : world) start hs :
  history w start hs "" →
  ∀ fuel t, length hs ≤ fuel →
    log_loop fuel start (World (fs w) t)
    = Some (Ok tt,
            World (fs w) (t ++ flat_map (λ e, log_entry e.1 e.2) hs)).
Proof.
  intros Hh. remember "" as last eqn:Hlast.
  induction Hh as [h|h text parentHash message hs last Hh Hobj Hparse Hrest IH];
    intros fuel t Hfuel.
  - subst h. destruct fuel; simpl; by rewrite (right_id_L [] (++)).
  - destruct fuel as [|fuel]; [simpl in Hfuel; lia|].
    destruct h as [|a h]; [done|]. cbn [log_loop empty fs].
    rewrite Hobj. unfold readFileContent, ifstream. cbn [fs]. rewrite Hobj.
    rewrite Hparse. unfold emit. cbn [fs trace].
    rewrite (IH Hlast) by (simpl in Hfuel; lia).
    cbn [flat_map log_entry fst snd].
    do 3 f_equal. by rewrite <-!(assoc_L (++)).
Qed.

(** *** [add] *)

Lemma add_file_missing stagedFiles (filename : string) (w : world) :
  fs w !! resolve filename = None →
  add_file stagedFiles filename w
  = (Ok stagedFiles,
     emit (Err ("File not found: " +:+ filename +:+ ". Skipping." +:+ endl)) w).
Proof.
  intros H. unfold add_file, bind, exists_. rewrite H.
  rewrite bool_decide_eq_false_2 by (by intros []). done.
Qed.

Lemma add_file_directory stagedFiles (filename : string) (w : world) :
  fs w !! resolve filename = Some Dir →
  add_file stagedFiles filename w
  = (Ok stagedFiles,
     emit (Err ("Cannot add directories: " +:+ filename
                +:+ ". Skipping." +:+ endl)) w).
Proof.
  intros H. unfold add_file, bind, exists_, is_directory. rewrite H.
  rewrite bool_decide_eq_true_2 by eauto. simpl. rewrite H.
  rewrite bool_decide_eq_true_2 by done. done.
Qed.

(** A regular file that cannot be opened for reading: [readFileContent]
    throws, and nothing has been done. *)
Lemma add_file_unreadable stagedFiles (filename : string) (w : world) :
  fs w !! resolve filename = Some Unreadable →
  add_file stagedFiles filename w
  = (Throw ("Could not open file: " +:+ filename), w).
Proof.
  intros H. unfold add_file, bind, exists_, is_directory,
    readFileContent, ifstream. rewrite H.
  rewrite bool_decide_eq_true_2 by eauto. simpl. rewrite H.
  rewrite bool_decide_eq_false_2 by done. simpl. by rewrite H.
Qed.

(** A regular file whose blob is already in the store: nothing is
    written. *)
Lemma add_file_present stagedFiles (filename content : string) (w : world) :
  fs w !! resolve filename = Some (File content) →
  is_Some (fs w !! Object (hashString content)) →
  add_file stagedFiles filename w
  = (Ok (<[filename := hashString content]> stagedFiles),
     emit (Out ("Staged " +:+ filename +:+ endl)) w).
Proof.
  intros H Hobj. unfold add_file, bind, exists_, is_directory,
    readFileContent, ifstream. rewrite H.
  rewrite bool_decide_eq_true_2 by eauto. simpl. rewrite H.
  rewrite bool_decide_eq_false_2 by done. simpl. rewrite H.
  rewrite bool_decide_eq_true_2 by done. done.
Qed.

(** A regular file whose blob is not yet in the store. *)
Lemma add_file_fresh stagedFiles (filename content : string) (w : world) :
  fs w !! resolve filename = Some (File content) →
  fs w !! Object (hashString content) = None →
  add_file stagedFiles filename w
  = if can_write (Object (hashString content))
    then (Ok (<[filename := hashString content]> stagedFiles),
          emit (Out ("Staged " +:+ filename +:+ endl))
            (ofstream_write (Object (hashString content)) content w))
    else (Throw ("Could not write to file: "
                 +:+ path_string (Object (hashString content))), w).
Proof.
  intros H Hobj. unfold add_file, bind, exists_, is_directory,
    readFileContent, ifstream, writeFileContent. rewrite H.
  rewrite bool_decide_eq_true_2 by eauto. simpl. rewrite H.
  rewrite bool_decide_eq_false_2 by done. simpl. rewrite H, Hobj.
  rewrite bool_decide_eq_false_2 by (by intros []). simpl.
  by destruct (can_write _).
Qed.

Lemma add_grows_refl filenames (w : world) : add_grows filenames w w.
Proof.
  split; [done|]. split; [done|]. split; [by left|].
  exists []. by rewrite (right_id_L [] (++)).
Qed.

Lemma add_grows_emit filenames e (w : world) :
  add_grows filenames w (emit e w).
Proof.
  split; [done|]. split; [done|]. split; [by left|]. by exists [e].
Qed.

Lemma object_or_not (p : path) :
  (∃ h, p = Object h) ∨ (∀ h, p ≠ Object h).
Proof. destruct p; eauto; by right. Qed.

(** A file that [add] finds while it runs was there before, or is the
    blob of an argument. *)
Lemma add_grows_file filenames (w w' : world) (p : path) (c : string) :
  add_grows filenames w w' → fs w' !! p = Some (File c) →
  fs w !! p = Some (File c) ∨
  ∃ f, f ∈ filenames ∧ fs w !! resolve f = Some (File c) ∧
       p = Object (hashString c).
Proof.
  intros (Hp & _ & Hn & _) Hf.
  destruct (object_or_not p) as [[h ->]|Hno].
  - destruct (Hn _ _ Hf) as [?|(f & c' & Hin & Hc' & -> & [= <-])];
      [by left|right; eauto].
  - left. by rewrite <-Hp.
Qed.

Lemma add_grows_unreadable filenames (w w' : world) (p : path) :
  add_grows filenames w w' → fs w' !! p = Some Unreadable →
  fs w !! p = Some Unreadable.
Proof.
  intros (Hp & _ & Hn & _) Hf.
  destruct (object_or_not p) as [[h ->]|Hno].
  - by destruct (Hn _ _ Hf) as [?|(f & c' & _ & _ & _ & [=])].
  - by rewrite <-Hp.
Qed.

Lemma add_grows_trans f filenames (w1 w2 w3 : world) :
  add_grows [f] w1 w2 → add_grows filenames w2 w3 →
  add_grows (f :: filenames) w1 w3.
Proof.
  intros H1 H2.
  pose proof H1 as (Hp1 & Ho1 & Hn1 & evs1 & Ht1).
  pose proof H2 as (Hp2 & Ho2 & Hn2 & evs2 & Ht2).
  split; [|split; [|split]].
  - intros p Hp. by rewrite Hp2, Hp1.
  - intros h blob Hb. by apply Ho2, Ho1.
  - intros h blob Hb. destruct (Hn2 _ _ Hb) as [Hb2|(g & c & Hg & Hf & -> & ->)].
    + destruct (Hn1 _ _ Hb2) as [?|(g & c & Hg & Hf & -> & ->)]; [by left|].
      right. exists g, c. apply list_elem_of_singleton in Hg as ->.
      split; [left|done].
    + right. destruct (add_grows_file _ _ _ _ _ H1 Hf)
        as [Hold|(f' & Hin & Hf' & _)].
      * exists g, c. split; [by right|done].
      * apply list_elem_of_singleton in Hin as ->.
        exists f, c. split; [by left|done].
  - exists (evs1 ++ evs2). by rewrite Ht2, Ht1, (assoc_L (++)).
Qed.

(** One iteration of the loop of [add], whatever its outcome. *)
Lemma add_file_step stagedFiles (filename : string) (w : world) r w1 :
  add_file stagedFiles filename w = (r, w1) →
  add_grows [filename] w w1 ∧
  match fs w !! resolve filename with
  | Some (File content) =>
      (r = Ok (<[filename := hashString content]> stagedFiles) ∧
       is_Some (fs w1 !! Object (hashString content)) ∧
       ∃ evs, trace w1 = trace w ++ evs ++
                [Out ("Staged " +:+ filename +:+ endl)])
      ∨ (∃ what, r = Throw what ∧ w1 = w ∧
           can_write (Object (hashString content)) = false)
  | Some Dir =>
      r = Ok stagedFiles ∧
      w1 = emit (Err ("Cannot add directories: " +:+ filename
                      +:+ ". Skipping." +:+ endl)) w
  | Some Unreadable =>
      r = Throw ("Could not open file: " +:+ filename) ∧ w1 = w
  | None =>
      r = Ok stagedFiles ∧
      w1 = emit (Err ("File not found: " +:+ filename
                      +:+ ". Skipping." +:+ endl)) w
  end.
Proof.
  destruct (fs w !! resolve filename) as [[content| |]|] eqn:Hf.
  - destruct (fs w !! Object (hashString content)) as [blob|] eqn:Hobj.
    + rewrite (add_file_present _ _ _ _ Hf) by eauto. intros [= <- <-].
      split; [apply add_grows_emit|]. left. split; [done|].
      split; [by simpl; eauto|]. by exists [].
    + rewrite (add_file_fresh _ _ _ _ Hf Hobj).
      destruct (can_write _) eqn:Hw; intros [= <- <-].
      * split.
        { split; [|split; [|split]]; simpl.
          - intros p Hp. by rewrite lookup_insert_ne.
          - intros h blob Hb. rewrite lookup_insert_ne; [done|].
            intros [= <-]. by rewrite Hobj in Hb.
          - intros h blob. rewrite lookup_insert. case_decide as Hd.
            + intros [= <-]. injection Hd as <-. right.
              exists filename, content. by rewrite list_elem_of_singleton.
            + by left.
          - eexists. by rewrite <-(assoc_L (++)). }
        left. split; [done|]. simpl. rewrite lookup_insert_eq.
        split; [by eauto|]. eexists [_]. by rewrite <-(assoc_L (++)).
      * split; [apply add_grows_refl|]. right. eauto.
  - rewrite (add_file_directory _ _ _ Hf). intros [= <- <-].
    split; [apply add_grows_emit|done].
  - rewrite (add_file_unreadable _ _ _ Hf). intros [= <- <-].
    split; [apply add_grows_refl|done].
  - rewrite (add_file_missing _ _ _ Hf). intros [= <- <-].
    split; [apply add_grows_emit|done].
Qed.

(** One iteration: either it succeeds, staging the file if it is a
    regular file and printing exactly one line about it, or it throws,
    having done nothing, because the file could not be read or a new
    blob could not be written. *)
Lemma add_file_outcome stagedFiles (filename : string) (w : world) r w1 :
  add_file stagedFiles filename w = (r, w1) →
  add_grows [filename] w w1 ∧
  ((r = Ok (match fs w !! resolve filename with
            | Some (File c) => <[filename := hashString c]> stagedFiles
            | _ => stagedFiles
            end) ∧
    fs w !! resolve filename ≠ Some Unreadable ∧
    (∀ c, fs w !! resolve filename = Some (File c) →
          is_Some (fs w1 !! Object (hashString c))) ∧
    ∃ evs, trace w1 = trace w ++ evs ∧
           List.filter is_console evs = [add_report w filename])
   ∨ (∃ what, r = Throw what ∧ w1 = w ∧
        ((∃ h, can_write (Object h) = false) ∨
         fs w !! resolve filename = Some Unreadable))).
Proof.
  intros Hrun. destruct (add_file_step _ _ _ _ _ Hrun) as [Hg Hcase].
  split; [done|]. unfold add_report. revert Hcase.
  destruct (fs w !! resolve filename) as [[content| |]|] eqn:Hf;
    intros Hcase; cbv beta iota in Hcase.
  - destruct Hcase as [Hok|Hthrow].
    { destruct Hok as (-> & Hobj & evs & Ht). left.
    split; [done|]. split; [done|]. split; [by intros ? [= <-]|].
    destruct (fs w !! Object (hashString content)) as [blob|] eqn:Ho.
    + rewrite (add_file_present _ _ _ _ Hf) in Hrun by eauto.
      injection Hrun as <-. by exists [Out ("Staged " +:+ filename +:+ endl)].
    + rewrite (add_file_fresh _ _ _ _ Hf Ho) in Hrun. revert Hrun.
      destruct (can_write _); [|by intros [=]]. intros [= <-].
      eexists [_; _]. split; [simpl; by rewrite <-(assoc_L (++))|done]. }
    destruct Hthrow as (what & Hr & Hw1 & Hw). right.
    exists what. split; [done|]. split; [done|]. left. eauto.
  - destruct Hcase as [-> ->]. left. split; [done|]. split; [done|].
    split; [done|]. by eexists [_].
  - destruct Hcase as [-> ->]. right. eexists. split; [done|]. split; [done|].
    by right.
  - destruct Hcase as [-> ->]. left. split; [done|]. split; [done|].
    split; [done|]. by eexists [_].
Qed.

Lemma add_report_grows filenames (w w' : world) f :
  add_grows filenames w w' → (∀ h, resolve f ≠ Object h) →
  add_report w' f = add_report w f.
Proof. intros [Hp _] Hf. unfold add_report. by rewrite Hp. Qed.

(** The whole loop of [add], whatever its outcome: the store only grows,
    and a throw comes from a blob that could not be written or from an
    argument that could not be read. *)
Lemma add_loop_grows (filenames : list string) :
  ∀ stagedFiles (w : world) r w1,
  for_each filenames add_file stagedFiles w = (r, w1) →
  add_grows filenames w w1 ∧
  (∀ what, r = Throw what →
     (∃ h, can_write (Object h) = false) ∨
     (∃ f, f ∈ filenames ∧ fs w !! resolve f = Some Unreadable)).
Proof.
  induction filenames as [|f l IH]; intros stagedFiles w r w1.
  - intros [= <- <-]. split; [apply add_grows_refl|done].
  - cbn [for_each]. unfold bind at 1.
    destruct (add_file stagedFiles f w) as [r0 w0] eqn:Hstep.
    destruct (add_file_outcome _ _ _ _ _ Hstep)
      as [Hg0 [(-> & _)|(what & -> & -> & Hwhy)]].
    + intros Hrest. destruct (IH _ _ _ _ Hrest) as [Hg Hthrow].
      split; [by eapply add_grows_trans|].
      intros what Hr. destruct (Hthrow _ Hr) as [?|(g & Hin & Hg_un)];
        [by left|right].
      exists g. split; [by right|]. by eapply add_grows_unreadable.
    + intros [= <- <-]. split.
      { eapply add_grows_trans; [done|apply add_grows_refl]. }
      intros _ _. destruct Hwhy as [?|?]; [by left|right].
      exists f. split; [by left|done].
Qed.

(** The loop of [add] when it returns, over names none of which denotes
    an object: what it stages, stores and prints is determined by the
    world it starts in. *)
Lemma add_loop (filenames : list string) :
  ∀ stagedFiles (w : world) staged' w1,
  (∀ f h, f ∈ filenames → resolve f ≠ Object h) →
  for_each filenames add_file stagedFiles w = (Ok staged', w1) →
  (∀ f, staged' !! f
        = if decide (f ∈ filenames) then
            match fs w !! resolve f with
            | Some (File c) => Some (hashString c)
            | _ => stagedFiles !! f
            end
          else stagedFiles !! f) ∧
  (∀ f, f ∈ filenames → fs w !! resolve f ≠ Some Unreadable) ∧
  (∀ f c, f ∈ filenames → fs w !! resolve f = Some (File c) →
          is_Some (fs w1 !! Object (hashString c))) ∧
  ∃ evs, trace w1 = trace w ++ evs ∧
         List.filter is_console evs = map (add_report w) filenames.
Proof.
  induction filenames as [|f l IH]; intros stagedFiles w staged' w1 Hno.
  - intros [= <- <-]. split.
    { intros f. case_decide as Hd; [|done]. by apply elem_of_nil in Hd. }
    split; [by intros ? ?%elem_of_nil|].
    split; [by intros ?? ?%elem_of_nil|].
    exists []. by rewrite (right_id_L [] (++)).
  - cbn [for_each]. unfold bind at 1.
    destruct (add_file stagedFiles f w) as [r0 w0] eqn:Hstep.
    destruct (add_file_outcome _ _ _ _ _ Hstep)
      as [Hg0 [(-> & Hread0 & Hobj0 & evs0 & Ht0 & Hc0)|(what & -> & _)]];
      [|done].
    intros Hrest.
    assert (Hno' : ∀ g h, g ∈ l → resolve g ≠ Object h)
      by (intros g h Hg; apply Hno; by right).
    destruct (IH _ _ _ _ Hno' Hrest) as (Hst & Hread & Hobj & evs & Ht & Hc).
    destruct (add_loop_grows _ _ _ _ _ Hrest) as [(_ & Hkeep & _) _].
    pose proof Hg0 as [Hp0 _].
    assert (Hsame : ∀ g, g ∈ f :: l →
              fs w0 !! resolve g = fs w !! resolve g).
    { intros g Hg. apply Hp0. intros h. by apply Hno. }
    split; [|split; [|split]].
    + intros g. rewrite Hst.
      destruct (decide (g = f)) as [->|Hgf].
      * rewrite (decide_True (P := f ∈ f :: l)) by left.
        case_decide as Hin; [rewrite Hsame by left|];
          destruct (fs w !! resolve f) as [[c| |]|];
          by rewrite ?lookup_insert_eq.
      * assert (g ∈ f :: l ↔ g ∈ l) as Hiff
          by (rewrite elem_of_cons; split; [by intros [?|?]|by right]).
        destruct (decide (g ∈ l)) as [Hin|Hnin].
        -- rewrite (decide_True (P := g ∈ f :: l)) by by apply Hiff.
           rewrite Hsame by by right.
           destruct (fs w !! resolve g) as [[c| |]|]; [done|..];
             destruct (fs w !! resolve f) as [[c'| |]|];
             by rewrite ?lookup_insert_ne.
        -- rewrite (decide_False (P := g ∈ f :: l)) by by rewrite Hiff.
           destruct (fs w !! resolve f) as [[c'| |]|];
             by rewrite ?lookup_insert_ne.
    + intros g [->|Hin]%elem_of_cons; [done|].
      rewrite <-Hsame by by right. by apply Hread.
    + intros g c [->|Hin]%elem_of_cons Hf.
      * destruct (Hobj0 _ Hf) as [blob Hb]. exists blob. by apply Hkeep.
      * apply (Hobj g); [done|]. by rewrite Hsame by by right.
    + exists (evs0 ++ evs). split; [by rewrite Ht, Ht0, (assoc_L (++))|].
      rewrite List.filter_app, Hc0, Hc. cbn [map app]. f_equal.
      apply map_ext_in. intros g Hg%list_elem_of_In.
      eapply add_report_grows; [done|]. intros h. apply Hno. by right.
Qed.

(** The loop of [add] when it returns, for any names: the mapping it
    builds differs from the one it starts with only at arguments, where
    it holds the hash of the content the named file has when the loop
    comes to it (which, for a name that denotes an object, it still has
    at the end). *)
Lemma add_loop_frame (filenames : list string) :
  ∀ stagedFiles (w : world) staged' w1,
  for_each filenames add_file stagedFiles w = (Ok staged', w1) →
  (∀ f, f ∉ filenames → staged' !! f = stagedFiles !! f) ∧
  (∀ f, staged' !! f ≠ stagedFiles !! f →
     f ∈ filenames ∧
     ∃ c, (fs w !! resolve f = Some (File c)
           ∨ fs w1 !! resolve f = Some (File c) ∧ ∃ h, resolve f = Object h)
          ∧ staged' !! f = Some (hashString c)) ∧
  (∀ f, is_Some (stagedFiles !! f) → is_Some (staged' !! f)).
Proof.
  induction filenames as [|f l IH]; intros stagedFiles w staged' w1.
  - intros [= <- <-]. split; [done|]. split; [done|done].
  - cbn [for_each]. unfold bind at 1.
    destruct (add_file stagedFiles f w) as [r0 w0] eqn:Hstep.
    destruct (add_file_outcome _ _ _ _ _ Hstep)
      as [Hg0 [(-> & _)|(what & -> & _)]]; [|done].
    intros Hrest. destruct (IH _ _ _ _ Hrest) as (Hout & Hin & Hkeep).
    destruct (add_loop_grows _ _ _ _ _ Hrest) as [Hg _].
    set (s0 := match fs w !! resolve f with
               | Some (File c) => <[f := hashString c]> stagedFiles
               | _ => stagedFiles
               end) in *.
    assert (Hs0 : ∀ g, s0 !! g ≠ stagedFiles !! g →
              g = f ∧ ∃ c, fs w !! resolve f = Some (File c) ∧
                           s0 !! g = Some (hashString c)).
    { intros g. unfold s0.
      destruct (fs w !! resolve f) as [[c| |]|]; try done.
      destruct (decide (g = f)) as [->|Hgf].
      - rewrite lookup_insert_eq. eauto.
      - by rewrite lookup_insert_ne. }
    split; [|split].
    + intros g Hnin. rewrite Hout by (intros ?; apply Hnin; by right).
      destruct (decide (s0 !! g = stagedFiles !! g)) as [|Hne]; [done|].
      destruct (Hs0 _ Hne) as [-> _]. destruct Hnin. by left.
    + intros g Hne.
      destruct (decide (staged' !! g = s0 !! g)) as [Heq|Hne'].
      * rewrite Heq in Hne. destruct (Hs0 _ Hne) as (-> & c & Hc & Hh).
        split; [by left|]. exists c. split; [by left|]. by rewrite Heq.
      * destruct (Hin _ Hne') as (Hmem & c & Hc & Hh).
        split; [by right|]. exists c. split; [|done].
        destruct Hc as [Hc|Hc]; [|by right].
        destruct (add_grows_file _ _ _ _ _ Hg0 Hc) as [?|(f' & _ & _ & Hobj)];
          [by left|].
        right. split; [|eauto]. destruct Hg as (_ & Hgkeep & _).
        rewrite Hobj. apply Hgkeep. by rewrite <-Hobj.
    + intros g Hsome. apply Hkeep. unfold s0.
      destruct (fs w !! resolve f) as [[c| |]|]; try done.
      destruct (decide (g = f)) as [->|Hgf].
      * rewrite lookup_insert_eq. eauto.
      * by rewrite lookup_insert_ne.
Qed.

Lemma add_unfold (filenames : list string) (w : world) stagedFiles :
  getStagingArea w = (Ok stagedFiles, w) →
  add filenames w
  = match for_each filenames add_file stagedFiles w with
    | (Ok staged', w1) => setStagingArea staged' w1
    | (Throw what, w1) => (Throw what, w1)
    end.
Proof. intros Hs. unfold add. unfold bind at 1. by rewrite Hs. Qed.

(** A mapping of words stays one when the entries that change get a
    word as filename and the hash of some content. *)
Lemma add_loop_words (stagedFiles staged' : gmap string string) :
  words_only stagedFiles →
  (∀ f, staged' !! f ≠ stagedFiles !! f →
        is_word f = true ∧ ∃ c, staged' !! f = Some (hashString c)) →
  words_only staged'.
Proof.
  intros Hsw Hnew f h Hf.
  destruct (decide (staged' !! f = stagedFiles !! f)) as [E|E].
  - apply Hsw. by rewrite <-E.
  - destruct (Hnew f E) as (Hword & c & Hh).
    rewrite Hh in Hf. injection Hf as <-.
    split; [done|apply hashString_word].
Qed.

(** An index file that holds the text of a mapping of words loads as
    that mapping. *)
Lemma getStagingArea_index_text (w : world) (stagedFiles : gmap string string) :
  fs w !! INDEX_FILE = Some (File (index_text stagedFiles)) →
  words_only stagedFiles →
  getStagingArea w = (Ok stagedFiles, w).
Proof.
  intros Hfile Hw. rewrite (getStagingArea_file _ _ Hfile).
  by rewrite read_index_text.
Qed.


(** Whatever the outcome of [add] (it may throw on a failed read or
    write), HEAD is untouched, and the index file is either untouched or
    holds the text of a mapping that agrees with the loaded staging area
    on every filename that is not an argument, differs from it only at
    arguments that name regular files (where it holds the hash of the
    content), and has an entry wherever the staging area had one. *)
Lemma add_saved_frame (filenames : list string) (w : world) stagedFiles r w' :
  getStagingArea w = (Ok stagedFiles, w) →
  add filenames w = (r, w') →
  fs w' !! HEAD_FILE = fs w !! HEAD_FILE ∧
  (fs w' !! INDEX_FILE = fs w !! INDEX_FILE ∨
   ∃ staged',
     fs w' !! INDEX_FILE = Some (File (index_text staged')) ∧
     (∀ f, f ∉ filenames → staged' !! f = stagedFiles !! f) ∧
     (∀ f, staged' !! f ≠ stagedFiles !! f →
        f ∈ filenames ∧
        ∃ c, (fs w !! resolve f = Some (File c)
              ∨ ∃ h, resolve f = Object h ∧
                     fs w' !! Object h = Some (File c))
             ∧ staged' !! f = Some (hashString c)) ∧
     (∀ f, is_Some (stagedFiles !! f) → is_Some (staged' !! f))).
Proof.
  intros Hs. rewrite (add_unfold _ _ _ Hs).
  destruct (for_each filenames add_file stagedFiles w) as [r1 w1] eqn:Hloop.
  destruct (add_loop_grows _ _ _ _ _ Hloop) as [(Hp & _) _].
  destruct r1 as [staged'|what].
  2:{ intros [= <- <-]. split; [by apply Hp|left; by apply Hp]. }
  destruct (add_loop_frame _ _ _ _ _ Hloop) as (Hout & Hin & Hkeep).
  unfold setStagingArea. destruct (can_write INDEX_FILE); intros [= <- <-].
  2:{ split; [by apply Hp|left; by apply Hp]. }
  simpl. split; [by rewrite lookup_insert_ne, Hp|]. right.
  exists staged'. split; [by rewrite lookup_insert_eq|]. split; [done|].
  split; [|done].
  intros f Hf. destruct (Hin f Hf) as (Hmem & c & Hc & Hh).
  split; [done|]. exists c. split; [|done].
  destruct Hc as [?|[Hc [h Hobj]]]; [by left|right].
  exists h. split; [done|]. rewrite Hobj in Hc.
  by rewrite lookup_insert_ne.
Qed.

(** C10 (amended). Whatever the outcome of [add] (it may throw on a
    failed read or write), HEAD is untouched.  When the arguments that
    name regular files are words, the staging area loaded afterwards
    agrees with the one loaded before on every filename that is not an
    argument, differs from it only at arguments that name regular files
    (where it holds the hash of the content), and has an entry wherever
    the staging area had one.  An argument names a regular file here
    when it does so before the run or when it denotes an object that is
    in the store after it (the run may have put it there). *)
Theorem add_frame (filenames : list string) (w : world) stagedFiles r w' :
  getStagingArea w = (Ok stagedFiles, w) →
  add filenames w = (r, w') →
  fs w' !! HEAD_FILE = fs w !! HEAD_FILE ∧
  ((∀ f c, f ∈ filenames →
      fs w !! resolve f = Some (File c)
      ∨ (∃ h, resolve f = Object h ∧ fs w' !! Object h = Some (File c)) →
      is_word f = true) →
   ∃ staged',
     getStagingArea w' = (Ok staged', w') ∧
     (∀ f, f ∉ filenames → staged' !! f = stagedFiles !! f) ∧
     (∀ f, staged' !! f ≠ stagedFiles !! f →
        f ∈ filenames ∧
        ∃ c, (fs w !! resolve f = Some (File c)
              ∨ ∃ h, resolve f = Object h ∧
                     fs w' !! Object h = Some (File c))
             ∧ staged' !! f = Some (hashString c)) ∧
     (∀ f, is_Some (stagedFiles !! f) → is_Some (staged' !! f))).
Proof.
  intros Hs Hadd.
  destruct (add_saved_frame _ _ _ _ _ Hs Hadd) as [Hhead Hindex].
  split; [done|]. intros Hwords.
  destruct Hindex as [Hsame|(staged' & Hfile & Hout & Hin & Hkeep)].
  { exists stagedFiles. split; [by eapply getStagingArea_same_index|].
    split; [done|]. split; [done|done]. }
  exists staged'. split; [|done].
  apply getStagingArea_index_text; [done|].
  apply (add_loop_words stagedFiles); [by eapply getStagingArea_words|].
  intros f Hf. destruct (Hin f Hf) as (Hf_in & c & Hc & Hh).
  split; [by eapply Hwords|eauto].
Qed.

(** C5 (amended). Staging a second file with the same content [content]
    (or the same file again) computes the same hash and writes nothing:
    the store after the second time is the store after the first time.
    In a content-addressed store where the key of [content] is free or
    already holds [content], exactly one key holds [content] afterwards,
    namely its hash.  The key is shared by exactly the contents to which
    [std::hash] gives the same value.  The unconditional write in
    [commit] of an object that is already stored under its hash leaves
    the store as it is, too. *)
Theorem store_twice (content f g : string) stagedFiles (w : world) :
  fs w !! resolve f = Some (File content) →
  fs w !! resolve g = Some (File content) →
  can_write (Object (hashString content)) = true →
  ∃ w1 w2,
    add_file stagedFiles f w
    = (Ok (<[f := hashString content]> stagedFiles), w1) ∧
    add_file (<[f := hashString content]> stagedFiles) g w1
    = (Ok (<[g := hashString content]>
             (<[f := hashString content]> stagedFiles)), w2) ∧
    fs w2 = fs w1 ∧
    trace w2 = trace w1 ++ [Out ("Staged " +:+ g +:+ endl)] ∧
    (content_addressed w →
     (∀ blob, fs w !! Object (hashString content) = Some blob →
              blob = File content) →
     ∀ h, fs w2 !! Object h = Some (File content) ↔ h = hashString content) ∧
    (∀ other, hashString other = hashString content
              ↔ hasher other = hasher content) ∧
    (∀ w0 text,
       fs w0 !! Object (hashString text) = Some (File text) →
       can_write (Object (hashString text)) = true →
       ∃ w0', writeFileContent (Object (hashString text)) text w0
              = (Ok tt, w0') ∧
              fs w0' = fs w0).
Proof.
  intros Hf Hg Hw.
  assert (∃ w1, add_file stagedFiles f w
                = (Ok (<[f := hashString content]> stagedFiles), w1) ∧
                fs w1 !! resolve g = Some (File content) ∧
                is_Some (fs w1 !! Object (hashString content)) ∧
                (∀ h, fs w1 !! Object h
                      = if decide (h = hashString content) then
                          match fs w !! Object h with
                          | Some blob => Some blob
                          | None => Some (File content)
                          end
                        else fs w !! Object h))
    as (w1 & H1 & Hg1 & Hobj1 & Hstore).
  { destruct (fs w !! Object (hashString content)) as [blob|] eqn:Ho.
    - rewrite (add_file_present _ _ _ _ Hf) by eauto. eexists.
      split; [done|]. simpl. split; [done|]. split; [by rewrite Ho|].
      intros h. case_decide as Hd; [|done]. subst h. by rewrite Ho.
    - rewrite (add_file_fresh _ _ _ _ Hf Ho), Hw. eexists.
      split; [done|]. simpl. split.
      { rewrite lookup_insert_ne; [done|]. intros E. by rewrite <-E, Ho in Hg. }
      split; [by rewrite lookup_insert_eq|].
      intros h. case_decide as Hd.
      + subst h. by rewrite lookup_insert_eq, Ho.
      + rewrite lookup_insert_ne; [done|]. by intros [= <-]. }
  exists w1. rewrite (add_file_present _ _ _ _ Hg1 Hobj1). eexists.
  split; [done|]. split; [done|]. split; [done|]. split; [done|].
  split; [|split].
  - intros Hca Hfree h. simpl. rewrite Hstore. case_decide as Hd.
    + subst h. split; [done|]. intros _.
      destruct (fs w !! Object (hashString content)) as [blob|] eqn:Ho;
        [|done]. by rewrite (Hfree _ eq_refl).
    + split; [|done]. intros Hh. destruct (Hca _ _ Hh) as (c & [= <-] & ->).
      done.
  - intros other. split; [|unfold hashString; by intros ->].
    intros H.
    by rewrite <-(hashString_to_N other), <-(hashString_to_N content), H.
  - intros w0 text Hobj Hw0. unfold writeFileContent. rewrite Hw0.
    eexists. split; [done|]. simpl. by apply insert_id.
Qed.

(** *** [init] *)

Lemma repoExists_directory (w : world) :
  fs w !! GIT_DIR = Some Dir → repoExists w = (Ok true, w).
Proof.
  intros H. unfold repoExists, bind, exists_, is_directory. rewrite H.
  rewrite bool_decide_eq_true_2 by eauto. simpl. rewrite H.
  by rewrite bool_decide_eq_true_2.
Qed.

(** Where there is no [.minigit] yet and nothing prevents writing, [init]
    leaves a repository with an empty HEAD and an empty staging area. *)
Lemma init_creates_repository (w : world) :
  fs w !! GIT_DIR = None → fs w !! OBJECTS_DIR = None →
  (∀ p, can_write p = true) →
  ∃ w', init can_write absolute_git_dir fs_error_what w = (Ok tt, w') ∧
        repoExists w' = (Ok true, w') ∧
        getHEAD w' = (Ok "", w') ∧
        getStagingArea w' = (Ok ∅, w').
Proof.
  intros Hg Ho Hw. eexists. split.
  { unfold init, repoExists, exists_, is_directory, create_directory,
      bind, ret, setHEAD, writeFileContent, setStagingArea, cout.
    rewrite Hg. rewrite bool_decide_eq_false_2 by (by intros []). simpl.
    rewrite Hg, !Hw. simpl. rewrite lookup_insert_ne by done. rewrite Ho.
    simpl. by rewrite index_text_empty. }
  split; [|split].
  - apply repoExists_directory. simpl.
    rewrite !lookup_insert_ne by done. apply lookup_insert_eq.
  - apply getHEAD_file. simpl.
    rewrite lookup_insert_ne by done. apply lookup_insert_eq.
  - rewrite (getStagingArea_file _ ""); [done|]. simpl. apply lookup_insert_eq.
Qed.

End Properties.

(** * Further properties *)

(** ** Hexadecimal object names *)

Lemma of_pos_hex (p : positive) (rest : string) :
  all_chars hex_digit rest = true →
  all_chars hex_digit (HexString.Raw.of_pos p rest) = true.
Proof.
  revert p rest. fix IH 1. intros p rest Hrest.
  do 4 try destruct p as [p|p|]; cbn [HexString.Raw.of_pos];
    try (apply IH); by cbn; rewrite ?Hrest.
Qed.

Section MoreProperties.

Variable hasher : string → N.
Variable can_write : path → bool.
Variable resolve : string → path.
Variable absolute_git_dir : string.
Variable fs_error_what : path → string.

Abbreviation hashString := (hashString hasher).
Abbreviation writeFileContent := (writeFileContent can_write).
Abbreviation setStagingArea := (setStagingArea can_write).
Abbreviation setHEAD := (setHEAD can_write).
Abbreviation add_file := (add_file hasher can_write resolve).
Abbreviation add := (add hasher can_write resolve).
Abbreviation commit := (commit hasher can_write).
Abbreviation init := (init can_write absolute_git_dir fs_error_what).
Abbreviation main :=
  (main hasher can_write resolve absolute_git_dir fs_error_what).
Abbreviation content_addressed := (content_addressed hasher).
Abbreviation evolves := (evolves hasher).
Abbreviation head_kept := (head_kept hasher).
Abbreviation collision_free := (collision_free hasher).
Abbreviation add_grows := (add_grows hasher resolve).
Abbreviation add_report := (add_report resolve).


(** X1. The text [hashString] makes of a hash value is a non-empty run of
    the digits 0-9a-f, and it loses nothing: two contents get the same
    object name exactly when [std::hash] gives them the same value. *)
Theorem hashString_faithful (c1 c2 : string) :
  hashString c1 ≠ "" ∧
  all_chars hex_digit (hashString c1) = true ∧
  (hashString c1 = hashString c2 ↔ hasher c1 = hasher c2).
Proof.
  split; [apply hashString_ne|]. split.
  - unfold hashString. destruct (hasher c1) as [|p]; [done|].
    by apply of_pos_hex.
  - split; [|unfold hashString; by intros ->].
    intros H.
    by rewrite <-(hashString_to_N hasher c1), <-(hashString_to_N hasher c2), H.
Qed.

(** ** HEAD *)


(** ** [init] *)

(** X3. In a directory that has no [.minigit], and where nothing prevents
    writing, [minigit init] exits with 0 and leaves exactly four new
    nodes, created in this order: the directories [.minigit] and
    [.minigit/objects], an empty HEAD and an empty index.  The result is
    a repository with no commit and nothing staged. *)
Theorem init_fresh (prog : string) (fuel : nat) (w : world) :
  fs w !! GIT_DIR = None → fs w !! OBJECTS_DIR = None →
  (∀ p, can_write p = true) →
  ∃ w', main fuel [prog; "init"] w = Some (0%Z, w') ∧
        fs w' = <[INDEX_FILE := File ""]> (<[HEAD_FILE := File ""]>
                  (<[OBJECTS_DIR := Dir]> (<[GIT_DIR := Dir]> (fs w)))) ∧
        trace w' = trace w ++
          [MkDir GIT_DIR; MkDir OBJECTS_DIR;
           Wrote HEAD_FILE ""; Wrote INDEX_FILE "";
           Out ("Initialized empty MiniGit repository in "
                +:+ quoted absolute_git_dir +:+ endl)] ∧
        repoExists w' = (Ok true, w') ∧
        getHEAD w' = (Ok "", w') ∧
        getStagingArea w' = (Ok ∅, w').
Proof.
  intros Hg Ho Hw.
  assert (Hinit : init w
    = (Ok tt,
       World (<[INDEX_FILE := File ""]> (<[HEAD_FILE := File ""]>
                (<[OBJECTS_DIR := Dir]> (<[GIT_DIR := Dir]> (fs w)))))
             (trace w ++
                [MkDir GIT_DIR; MkDir OBJECTS_DIR;
                 Wrote HEAD_FILE ""; Wrote INDEX_FILE "";
                 Out ("Initialized empty MiniGit repository in "
                      +:+ quoted absolute_git_dir +:+ endl)]))).
  { unfold init, repoExists, exists_, is_directory,
      create_directory, bind, ret, setHEAD, writeFileContent,
      setStagingArea, cout.
    rewrite Hg. rewrite bool_decide_eq_false_2 by (by intros []). simpl.
    rewrite Hg, !Hw. simpl. rewrite lookup_insert_ne by done. rewrite Ho.
    simpl. rewrite index_text_empty. unfold emit, ofstream_write. simpl.
    by rewrite <-!(assoc_L (++)). }
  eexists. split.
  { unfold main, dispatch. simpl. unfold bind at 1. by rewrite Hinit. }
  split; [done|]. split; [done|]. split; [|split].
  - apply repoExists_directory. simpl.
    rewrite !lookup_insert_ne by done. apply lookup_insert_eq.
  - apply getHEAD_file. simpl.
    rewrite lookup_insert_ne by done. apply lookup_insert_eq.
  - rewrite (getStagingArea_file _ ""); [done|]. simpl. apply lookup_insert_eq.
Qed.

(** X4. [minigit init] in a directory that already is a repository only
    prints a notice and exits with 0: HEAD, the index and the objects are
    left as they are. *)
Theorem init_again (prog : string) (fuel : nat) (w : world) :
  repoExists w = (Ok true, w) →
  ∃ w', main fuel [prog; "init"] w = Some (0%Z, w') ∧
        fs w' = fs w ∧
        trace w' = trace w ++
          [Out ("MiniGit repository already initialized in "
                +:+ quoted ".minigit" +:+ endl)].
Proof.
  intros Hrepo. eexists. split.
  { unfold main, dispatch. simpl. unfold bind at 1.
    unfold init. unfold bind at 1. by rewrite Hrepo. }
  split; reflexivity.
Qed.


(** ** [log] *)

Lemma getHEAD_world (w w' : world) r : getHEAD w = (r, w') → w' = w.
Proof.
  unfold getHEAD, bind, exists_, readFileContent, ret.
  destruct (bool_decide _); simpl; [|by intros [= _ <-]].
  destruct (ifstream w HEAD_FILE); by intros [= _ <-].
Qed.

(** Walking along a history uses one unit of fuel per commit and prints
    its entries. *)
Lemma log_loop_walk (w : world) a hs b :
  history w a hs b →
  ∀ fuel t,
    log_loop (length hs + fuel) a (World (fs w) t)
    = log_loop fuel b
        (World (fs w) (t ++ flat_map (λ e, log_entry e.1 e.2) hs)).
Proof.
  induction 1 as [h|h text parentHash message hs last Hh Hobj Hparse Hrest IH];
    intros fuel t.
  - simpl. by rewrite (right_id_L [] (++)).
  - destruct h as [|c h]; [done|].
    cbn [length Nat.add log_loop empty fs].
    rewrite Hobj. unfold readFileContent, ifstream. cbn [fs]. rewrite Hobj.
    rewrite Hparse. unfold emit. cbn [fs trace]. rewrite IH.
    cbn [flat_map log_entry fst snd]. by rewrite <-!(assoc_L (++)).
Qed.

Lemma log_loop_short (w : world) a hs b :
  history w a hs b → b ≠ "" →
  ∀ fuel t, fuel ≤ length hs → log_loop fuel a (World (fs w) t) = None.
Proof.
  induction 1 as [h|h text parentHash message hs last Hh Hobj Hparse Hrest IH];
    intros Hb fuel t Hfuel.
  - destruct fuel; [|simpl in Hfuel; lia]. by destruct h.
  - destruct h as [|c h]; [done|]. destruct fuel as [|fuel]; [done|].
    cbn [log_loop empty fs].
    rewrite Hobj. unfold readFileContent, ifstream. cbn [fs]. rewrite Hobj.
    rewrite Hparse. apply IH; [done|]. simpl in Hfuel. lia.
Qed.

Lemma log_loop_frame (fuel : nat) :
  ∀ cur (w : world) r w',
    log_loop fuel cur w = Some (r, w') →
    fs w' = fs w ∧ ∃ evs, trace w' = trace w ++ evs ∧ console_only evs.
Proof.
  assert (Hnil : ∀ w : world, fs w = fs w ∧
            ∃ evs, trace w = trace w ++ evs ∧ console_only evs).
  { intros w. split; [done|]. exists []. split; [|by constructor].
    by rewrite (right_id_L [] (++)). }
  induction fuel as [|fuel IH]; intros cur w r w'.
  - destruct cur; [|done]. intros [= <- <-]. apply Hnil.
  - destruct cur as [|c cur]; [intros [= <- <-]; apply Hnil|].
    cbn [log_loop empty].
    assert (Hstep : ∀ text,
              match foldl log_line ("", "") (getlines text) with
              | (parentHash, message) =>
                  log_loop fuel parentHash
                    (emit (Out ("    " +:+ message +:+ endl +:+ endl))
                       (emit (Out ("commit " +:+ String c cur +:+ endl)) w))
              end = Some (r, w') →
              fs w' = fs w ∧
              ∃ evs, trace w' = trace w ++ evs ∧ console_only evs).
    { intros text. destruct (foldl log_line _ _) as [parentHash message].
      intros Hrun. destruct (IH _ _ _ _ Hrun) as (Hfs & evs & Ht & Hc).
      split; [done|]. eexists (_ :: _ :: evs). split.
      * rewrite Ht. simpl. by rewrite <-!(assoc_L (++)).
      * by repeat constructor. }
    destruct (fs w !! Object (String c cur)) as [[text| |]|] eqn:Hobj.
    + unfold readFileContent, ifstream. rewrite Hobj. apply Hstep.
    + unfold readFileContent, ifstream. rewrite Hobj. apply (Hstep "").
    + unfold readFileContent, ifstream. rewrite Hobj.
      intros [= <- <-]. apply Hnil.
    + intros [= <- <-]. split; [done|]. eexists [_]. split; [done|].
      by repeat constructor.
Qed.

(** X5. [log] only reads: however it ends (it may report a missing
    object, or throw on an object that cannot be opened), the file system
    is left as it was and everything it adds to the trace is console
    output. *)
Theorem log_read_only (fuel : nat) (w : world) r w' :
  log fuel w = Some (r, w') →
  fs w' = fs w ∧ ∃ evs, trace w' = trace w ++ evs ∧ console_only evs.
Proof.
  unfold log. destruct (getHEAD w) as [[cur|e] w0] eqn:Hhead.
  - apply getHEAD_world in Hhead as ->. destruct (empty cur).
    + intros [= <- <-]. split; [done|]. eexists [_]. split; [done|].
      by repeat constructor.
    + apply log_loop_frame.
  - apply getHEAD_world in Hhead as ->. intros [= <- <-]. split; [done|].
    exists []. split; [by rewrite (right_id_L [] (++))|by constructor].
Qed.

(** X6. In a repository without a commit, [minigit log] prints "No
    commits yet." and exits with 0, whatever else is in the store. *)
Theorem log_no_commits (prog : string) (fuel : nat) (w : world) :
  repoExists w = (Ok true, w) →
  getHEAD w = (Ok "", w) →
  main fuel [prog; "log"] w
  = Some (0%Z, emit (Out ("No commits yet." +:+ endl)) w).
Proof.
  intros Hrepo Hhead. unfold main, dispatch. simpl. rewrite Hrepo.
  unfold log. by rewrite Hhead.
Qed.

(** X7. When the parent links from HEAD lead through the commits [hs] to a
    root commit, [minigit log] prints the hash and the message of every
    one of them, youngest first, and exits with 0; fuel for [length hs]
    rounds of the loop is enough. *)
Theorem log_full_history (prog : string) (fuel : nat) (w : world) start hs :
  repoExists w = (Ok true, w) →
  getHEAD w = (Ok start, w) → start ≠ "" →
  history w start hs "" →
  length hs ≤ fuel →
  main fuel [prog; "log"] w
  = Some (0%Z,
          World (fs w) (trace w ++ flat_map (λ e, log_entry e.1 e.2) hs)).
Proof.
  intros Hrepo Hhead Hne Hh Hfuel. unfold main, dispatch. simpl.
  rewrite Hrepo. unfold log. rewrite Hhead.
  destruct start as [|c start]; [done|]. cbn [empty].
  destruct w as [f t].
  replace fuel with (length hs + (fuel - length hs)) by lia.
  rewrite (log_loop_walk (World f t) _ _ _ Hh). simpl.
  by destruct (fuel - length hs).
Qed.

(** X8. [log] has no guard against a history that runs in a circle: when
    the parent links from [start] lead back to [start], no amount of fuel
    lets the loop end, so [minigit log] never returns. *)
Theorem log_cycle_diverges (prog : string) (w : world) start hs :
  repoExists w = (Ok true, w) →
  getHEAD w = (Ok start, w) →
  history w start hs start → hs ≠ [] →
  ∀ fuel, log fuel w = None ∧ main fuel [prog; "log"] w = None.
Proof.
  intros Hrepo Hhead Hh Hhs.
  assert (Hne : start ≠ "") by (inversion Hh; by subst).
  assert (Hloop : ∀ fuel t, log_loop fuel start (World (fs w) t) = None).
  { induction fuel as [fuel IH] using lt_wf_ind. intros t.
    destruct (decide (fuel ≤ length hs)) as [Hle|Hgt].
    - by eapply log_loop_short.
    - replace fuel with (length hs + (fuel - length hs)) by lia.
      rewrite (log_loop_walk _ _ _ _ Hh). apply IH.
      destruct hs; [done|]. simpl in *. lia. }
  assert (Hlog : ∀ fuel, log fuel w = None).
  { intros fuel. unfold log. rewrite Hhead.
    destruct start as [|c start]; [done|]. cbn [empty].
    destruct w as [f t]. apply (Hloop fuel t). }
  intros fuel. split; [apply Hlog|].
  unfold main, dispatch. simpl. rewrite Hrepo. by rewrite Hlog.
Qed.

(** ** The command line *)

(** X9. Outside a repository, [add], [commit] and [log] refuse to run:
    each prints its "Fatal: Not a MiniGit repository" line, exits with 1
    and leaves the file system alone, whatever its further arguments. *)
Theorem main_outside_repository (prog : string) (fuel : nat)
    (args : list string) (w : world) :
  repoExists w = (Ok false, w) →
  main fuel (prog :: "add" :: args) w
  = Some (1%Z, emit (Err ("Fatal: Not a MiniGit repository. "
                          +:+ "(Run 'minigit init' first)" +:+ endl)) w) ∧
  main fuel (prog :: "commit" :: args) w
  = Some (1%Z, emit (Err ("Fatal: Not a MiniGit repository." +:+ endl)) w) ∧
  main fuel (prog :: "log" :: args) w
  = Some (1%Z, emit (Err ("Fatal: Not a MiniGit repository." +:+ endl)) w).
Proof.
  intros Hrepo. unfold main, dispatch. simpl.
  unfold bind. rewrite Hrepo. done.
Qed.

(** X10. A command line that is too short, names an unknown command, asks
    [add] for no file, or gives [commit] anything but [-m <message>],
    exits with 1 after printing to the error stream (the text [usage]
    of [printUsage], or the usage line of the command), and the file
    system is left as it was. *)
Theorem main_bad_arguments (prog : string) (fuel : nat) (w : world) :
  ∃ usage,
    (∀ w0, printUsage w0 = (Ok tt, emit (Err usage) w0)) ∧
    (∀ argv, length argv < 2 →
       main fuel argv w = Some (1%Z, emit (Err usage) w)) ∧
    (∀ command args,
       command ∉ ["init"; "add"; "commit"; "log"] →
       main fuel (prog :: command :: args) w
       = Some (1%Z,
               emit (Err usage)
                 (emit (Err ("Unknown command: " +:+ command +:+ endl)) w))) ∧
    (repoExists w = (Ok true, w) →
       main fuel [prog; "add"] w
       = Some (1%Z, emit (Err ("Usage: minigit add <file1> [file2]..."
                               +:+ endl)) w)) ∧
    (repoExists w = (Ok true, w) →
       ∀ args, (∀ message, args ≠ ["-m"; message]) →
       main fuel (prog :: "commit" :: args) w
       = Some (1%Z, emit (Err commit_usage) w)).
Proof.
  eexists. split; [|split; [|split; [|split]]].
  - intros w0. reflexivity.
  - intros [|a [|b argv]] Hlen; [done|done|simpl in Hlen; lia].
  - intros command args Hcmd. unfold main, dispatch.
    rewrite !decide_False; [done|..]; intros ->; apply Hcmd;
      rewrite !elem_of_cons; auto.
  - intros Hrepo. unfold main, dispatch. simpl.
    unfold bind at 1. by rewrite Hrepo.
  - intros Hrepo args Hargs. unfold main, dispatch. simpl.
    unfold bind at 1. rewrite Hrepo. simpl.
    destruct args as [|flag [|message [|x args]]]; try done.
    destruct (decide (flag = "-m")) as [->|]; [|done].
    by destruct (Hargs message).
Qed.

(** ** [commit], whatever its outcome *)

Lemma getCommitFiles_world (w w' : world) commitHash r :
  getCommitFiles commitHash w = (r, w') → w' = w.
Proof.
  unfold getCommitFiles. destruct (empty commitHash); [by intros [= _ <-]|].
  unfold bind, exists_, readFileContent, throw, ret.
  destruct (bool_decide _); simpl; [|by intros [= _ <-]].
  destruct (ifstream w (Object commitHash)); by intros [= _ <-].
Qed.

Lemma index_cleared_lookup (w : world) (p : path) :
  p ≠ INDEX_FILE → fs (index_cleared can_write w) !! p = fs w !! p.
Proof.
  intros Hp. unfold index_cleared. destruct (can_write INDEX_FILE); [|done].
  simpl. by rewrite lookup_insert_ne.
Qed.

(** The ways a run of [commit] can go. *)
Lemma commit_cases (message : string) (w : world) r w' :
  commit message w = (r, w') →
  (getStagingArea w = (Ok ∅, w) ∧ r = Ok tt ∧
   w' = emit (Out ("Nothing to commit, working tree clean." +:+ endl)) w)
  ∨ (∃ what, r = Throw what ∧ w' = w)
  ∨ (∃ stagedFiles parentCommit inherited,
       getStagingArea w = (Ok stagedFiles, w) ∧ stagedFiles ≠ ∅ ∧
       getHEAD w = (Ok parentCommit, w) ∧
       getCommitFiles parentCommit w = (Ok inherited, w) ∧
       let commitString :=
         commit_text parentCommit message
           (merge_staged inherited stagedFiles) in
       let commitHash := hashString commitString in
       can_write (Object commitHash) = true ∧
       ((can_write HEAD_FILE = false ∧
         r = Throw ("Could not write to file: " +:+ path_string HEAD_FILE) ∧
         w' = ofstream_write (Object commitHash) commitString w)
        ∨ (can_write HEAD_FILE = true ∧ r = Ok tt ∧
           w' = emit (Out ("Committed [" +:+ commitHash +:+ "] "
                           +:+ message +:+ endl))
                  (index_cleared can_write
                     (ofstream_write HEAD_FILE commitHash
                        (ofstream_write (Object commitHash) commitString
                           w)))))).
Proof.
  destruct (getStagingArea_total w) as (stagedFiles & Hs & _).
  destruct (decide (stagedFiles = ∅)) as [->|Hne].
  { unfold commit. unfold bind at 1. rewrite Hs.
    destruct (decide (∅ = ∅)); [|done]. intros [= <- <-]. by left. }
  destruct (getHEAD w) as [[parentCommit|e] w0] eqn:Hh;
    pose proof (getHEAD_world _ _ _ Hh) as ->.
  2:{ unfold commit. unfold bind at 1. rewrite Hs.
      destruct (decide _); [done|]. unfold bind at 1. rewrite Hh.
      intros [= <- <-]. right. left. eauto. }
  destruct (getCommitFiles parentCommit w) as [[inherited|e] w0] eqn:Hp;
    pose proof (getCommitFiles_world _ _ _ _ Hp) as ->.
  2:{ unfold commit. unfold bind at 1. rewrite Hs.
      destruct (decide _); [done|]. unfold bind at 1. rewrite Hh.
      unfold bind at 1.
      destruct parentCommit as [|c parentCommit]; [done|]. cbn [empty negb].
      rewrite Hp. intros [= <- <-]. right. left. eauto. }
  rewrite (commit_unfold _ _ _ _ _ _ _ Hs Hne Hh Hp). cbv zeta.
  unfold bind, setHEAD, writeFileContent, setStagingArea, cout.
  destruct (can_write (Object _)) eqn:Ho.
  2:{ intros [= <- <-]. right. left. eauto. }
  intros Hrun.
  right. right. exists stagedFiles, parentCommit, inherited.
  split; [done|]. split; [done|]. split; [done|]. split; [done|].
  cbv zeta. split; [done|]. revert Hrun.
  destruct (can_write HEAD_FILE) eqn:Hw.
  - unfold index_cleared. rewrite index_text_empty.
    destruct (can_write INDEX_FILE); intros [= <- <-]; right; done.
  - intros [= <- <-]. left. done.
Qed.

(** X11. [commit] with something staged and a HEAD that names an object
    missing from the store throws "Cannot find commit object" and writes
    nothing; the program then prints the error and exits with 1. *)
Theorem commit_missing_parent (prog message : string) (fuel : nat)
    (w : world) stagedFiles parentCommit :
  getStagingArea w = (Ok stagedFiles, w) → stagedFiles ≠ ∅ →
  getHEAD w = (Ok parentCommit, w) → parentCommit ≠ "" →
  fs w !! Object parentCommit = None →
  commit message w
  = (Throw ("Cannot find commit object: " +:+ parentCommit), w) ∧
  (repoExists w = (Ok true, w) →
   main fuel [prog; "commit"; "-m"; message] w
   = Some (1%Z, emit (Err ("Error: Cannot find commit object: "
                           +:+ parentCommit +:+ endl)) w)).
Proof.
  intros Hs Hne Hh Hp Hobj.
  assert (Hc : commit message w
               = (Throw ("Cannot find commit object: " +:+ parentCommit), w)).
  { unfold commit. unfold bind at 1. rewrite Hs.
    destruct (decide _); [done|]. unfold bind at 1. rewrite Hh.
    unfold bind at 1. destruct parentCommit as [|c p]; [done|].
    cbn [empty negb]. by rewrite (getCommitFiles_missing _ _ Hp Hobj). }
  split; [done|]. intros Hrepo. unfold main, dispatch. simpl.
  unfold bind at 1. rewrite Hrepo. simpl. unfold bind at 1. rewrite Hc.
  simpl. unfold emit. simpl. by rewrite <-!app_assoc'.
Qed.

(** ** What no command does *)

Section Keeps.

Context (R : relation world) `{!PreOrder R}.

Lemma keeps_ret {A} (a : A) : keeps R (ret a).
Proof. by intros w r w' [= _ <-]. Qed.

Lemma keeps_throw {A} (what : string) : keeps R (@throw A what).
Proof. by intros w r w' [= _ <-]. Qed.

Lemma keeps_bind {A B} (m : M A) (k : A → M B) :
  keeps R m → (∀ a, keeps R (k a)) → keeps R (bind m k).
Proof.
  intros Hm Hk w r w'. unfold bind.
  destruct (m w) as [[a|e] w1] eqn:E; intros Hrun.
  - etrans; [by eapply Hm|by eapply Hk].
  - injection Hrun as _ <-. by eapply Hm.
Qed.

Lemma keeps_exists (p : path) : keeps R (exists_ p).
Proof. by intros w r w' [= _ <-]. Qed.

Lemma keeps_is_directory (p : path) : keeps R (is_directory p).
Proof. by intros w r w' [= _ <-]. Qed.

Lemma keeps_readFileContent (filename : string) (p : path) :
  keeps R (readFileContent filename p).
Proof.
  intros w r w'. unfold readFileContent.
  destruct (ifstream w p); by intros [= _ <-].
Qed.

Lemma keeps_for_each {A S} (body : S → A → M S) (l : list A) :
  (∀ s x, x ∈ l → keeps R (body s x)) → ∀ s, keeps R (for_each l body s).
Proof.
  induction l as [|x l IH]; intros Hbody s; [apply keeps_ret|].
  cbn [for_each]. apply keeps_bind.
  - apply Hbody. by left.
  - intros s'. apply IH. intros s0 y Hy. apply Hbody. by right.
Qed.

Lemma keeps_repoExists : keeps R repoExists.
Proof.
  unfold repoExists. apply keeps_bind; [apply keeps_exists|].
  intros []; [apply keeps_is_directory|apply keeps_ret].
Qed.

Hypothesis R_emit : ∀ e w, R w (emit e w).

Lemma keeps_cout (text : string) : keeps R (cout text).
Proof. intros w r w' [= _ <-]. apply R_emit. Qed.

Lemma keeps_cerr (text : string) : keeps R (cerr text).
Proof. intros w r w' [= _ <-]. apply R_emit. Qed.

(** [main] keeps whatever the four commands keep. *)
Lemma main_keeps (fuel : nat) (argv : list string) (w : world) status w' :
  keeps R init →
  (∀ filenames, keeps R (add filenames)) →
  (∀ message, keeps R (commit message)) →
  (∀ w r w', log fuel w = Some (r, w') → R w w') →
  main fuel argv w = Some (status, w') → R w w'.
Proof.
  intros Hinit Hadd Hcommit Hlog.
  assert (Hrun : ∀ (m : M Z) r w1,
            keeps R m →
            match m w with
            | (Ok status, w') => Some (status, w')
            | (Throw what, w') =>
                Some (1%Z, (cerr ("Error: " +:+ what +:+ endl) w').2)
            end = Some (r, w1) → R w w1).
  { intros m r w1 Hm. destruct (m w) as [[s|e] w2] eqn:E; intros [= _ <-].
    - by eapply Hm.
    - etrans; [by eapply Hm|apply R_emit]. }
  assert (Hfail : ∀ text, keeps R (cerr text ;; ret 1%Z)).
  { intros text. apply keeps_bind; [apply keeps_cerr|intros ?; apply keeps_ret]. }
  destruct argv as [|prog [|command args]];
    [by intros [= _ <-]; apply R_emit..|].
  unfold main, dispatch.
  destruct (decide (command = "init")) as [_|_].
  { apply Hrun. apply keeps_bind; [done|intros ?; apply keeps_ret]. }
  destruct (decide (command = "add")) as [_|_].
  { apply Hrun. apply keeps_bind; [apply keeps_repoExists|intros ?].
    destruct (negb _); [apply Hfail|].
    destruct args; [apply Hfail|].
    apply keeps_bind; [apply Hadd|intros ?; apply keeps_ret]. }
  destruct (decide (command = "commit")) as [_|_].
  { apply Hrun. apply keeps_bind; [apply keeps_repoExists|intros ?].
    destruct (negb _); [apply Hfail|].
    destruct args as [|flag [|message [|x args]]]; try apply Hfail.
    destruct (decide _); [|apply Hfail].
    apply keeps_bind; [apply Hcommit|intros ?; apply keeps_ret]. }
  destruct (decide (command = "log")) as [_|_].
  { destruct (repoExists w) as [[[|]|what] w0] eqn:Hrepo;
      pose proof (keeps_repoExists _ _ _ Hrepo) as Hw0.
    - destruct (log fuel w0) as [[[[]|what] w1]|] eqn:Hl; [..|done].
      + intros [= _ <-]. etrans; [done|by eapply Hlog].
      + intros [= _ <-]. etrans; [done|]. etrans; [by eapply Hlog|].
        apply R_emit.
    - intros [= _ <-]. etrans; [done|]. apply R_emit.
    - intros [= _ <-]. etrans; [done|]. apply R_emit. }
  apply Hrun. apply keeps_bind; [apply keeps_cerr|intros ?].
  apply keeps_bind; [apply keeps_cerr|intros ?; apply keeps_ret].
Qed.

End Keeps.

Lemma evolves_refl (w : world) : evolves w w.
Proof.
  split; [done|]. split; [done|]. split; [by left|].
  exists []. by rewrite (right_id_L [] (++)).
Qed.

Lemma evolves_trans (w1 w2 w3 : world) :
  evolves w1 w2 → evolves w2 w3 → evolves w1 w3.
Proof.
  intros (Hf1 & Hp1 & Ho1 & evs1 & Ht1) (Hf2 & Hp2 & Ho2 & evs2 & Ht2).
  split; [|split; [|split]].
  - intros f. by rewrite Hf2.
  - intros p Hp. by apply Hp2, Hp1.
  - intros h blob Hb. destruct (Ho2 _ _ Hb) as [Hb2|?]; [|by right].
    by apply Ho1.
  - exists (evs1 ++ evs2). by rewrite Ht2, Ht1, (assoc_L (++)).
Qed.

#[local] Instance evolves_preorder : PreOrder evolves.
Proof. split; [exact evolves_refl|exact evolves_trans]. Qed.

Lemma evolves_emit (e : event) (w : world) : evolves w (emit e w).
Proof.
  split; [done|]. split; [done|]. split; [by left|]. by exists [e].
Qed.

Lemma evolves_write (p : path) (content : string) (w : world) :
  (∀ f, p ≠ WorkFile f) →
  (∀ h, p = Object h → h = hashString content) →
  evolves w (ofstream_write p content w).
Proof.
  intros Hwf Hobj. split; [|split; [|split]]; simpl.
  - intros f. by rewrite lookup_insert_ne.
  - intros q Hq. destruct (decide (p = q)) as [->|Hpq].
    + rewrite lookup_insert_eq. eauto.
    + by rewrite lookup_insert_ne.
  - intros h blob. destruct (decide (p = Object h)) as [->|Hpq].
    + rewrite lookup_insert_eq. intros [= <-]. right. eauto.
    + rewrite lookup_insert_ne by done. by left.
  - by eexists [_].
Qed.

Lemma keeps_writeFileContent (p : path) (content : string) :
  (∀ f, p ≠ WorkFile f) →
  (∀ h, p = Object h → h = hashString content) →
  keeps evolves (writeFileContent p content).
Proof.
  intros Hwf Hobj w r w'. unfold writeFileContent.
  destruct (can_write p); intros [= _ <-]; [|done].
  by apply evolves_write.
Qed.

Lemma keeps_write_object (content : string) :
  keeps evolves (writeFileContent (Object (hashString content)) content).
Proof. apply keeps_writeFileContent; [done|]. by intros h [= <-]. Qed.

Lemma keeps_setHEAD (commitHash : string) :
  keeps evolves (writeFileContent HEAD_FILE commitHash).
Proof. by apply keeps_writeFileContent. Qed.

Lemma keeps_setStagingArea stagedFiles :
  keeps evolves (setStagingArea stagedFiles).
Proof.
  intros w r w'. unfold setStagingArea.
  destruct (can_write _); intros [= _ <-]; [|done].
  by apply evolves_write.
Qed.

Lemma keeps_create_directory (p : path) :
  (∀ f, p ≠ WorkFile f) → (∀ h, p ≠ Object h) →
  keeps evolves (create_directory can_write fs_error_what p).
Proof.
  intros Hwf Hobj w r w'. unfold create_directory.
  destruct (fs w !! p) as [[| |]|]; [by intros [= _ <-]..|].
  destruct (can_write p); intros [= _ <-]; [|done].
  split; [|split; [|split]]; simpl.
  - intros f. by rewrite lookup_insert_ne.
  - intros q Hq. destruct (decide (p = q)) as [->|Hpq].
    + rewrite lookup_insert_eq. eauto.
    + by rewrite lookup_insert_ne.
  - intros h blob. rewrite lookup_insert_ne by done. by left.
  - by eexists [_].
Qed.

Ltac keeps_evolves :=
  repeat first
    [ apply (keeps_bind evolves); [|intros ?]
    | apply (keeps_ret evolves)
    | apply (keeps_throw evolves)
    | apply (keeps_exists evolves)
    | apply (keeps_is_directory evolves)
    | apply (keeps_readFileContent evolves)
    | apply (keeps_cout evolves evolves_emit)
    | apply (keeps_cerr evolves evolves_emit)
    | apply keeps_setStagingArea
    | apply keeps_write_object
    | apply keeps_setHEAD
    | by apply keeps_create_directory
    | match goal with
      | |- keeps _ (if ?b then _ else _) => destruct b
      | |- keeps _ (match ?x with _ => _ end) => destruct x
      end ].

Lemma keeps_getStagingArea : keeps evolves getStagingArea.
Proof.
  unfold getStagingArea. keeps_evolves. by intros w r w' [= _ <-].
Qed.

Lemma keeps_getHEAD : keeps evolves getHEAD.
Proof. unfold getHEAD. keeps_evolves. Qed.

Lemma keeps_getCommitFiles commitHash :
  keeps evolves (getCommitFiles commitHash).
Proof. unfold getCommitFiles. keeps_evolves. Qed.

Lemma keeps_init : keeps evolves init.
Proof.
  unfold init, setHEAD.
  apply (keeps_bind evolves); [apply (keeps_repoExists evolves)|intros ?].
  keeps_evolves.
Qed.

Lemma keeps_add_file stagedFiles filename :
  keeps evolves (add_file stagedFiles filename).
Proof. unfold add_file. cbv zeta. keeps_evolves. Qed.

Lemma keeps_add filenames : keeps evolves (add filenames).
Proof.
  unfold add.
  apply (keeps_bind evolves); [apply keeps_getStagingArea|intros ?].
  apply (keeps_bind evolves); [|intros ?; apply keeps_setStagingArea].
  apply (keeps_for_each evolves). intros; apply keeps_add_file.
Qed.

Lemma keeps_commit message : keeps evolves (commit message).
Proof.
  unfold commit, setHEAD. cbv zeta.
  apply (keeps_bind evolves); [apply keeps_getStagingArea|intros ?].
  destruct (decide _); [apply (keeps_cout evolves evolves_emit)|].
  apply (keeps_bind evolves); [apply keeps_getHEAD|intros ?].
  apply (keeps_bind evolves).
  { destruct (negb _); [apply keeps_getCommitFiles|apply (keeps_ret evolves)]. }
  intros ?. keeps_evolves.
Qed.

Lemma log_evolves (fuel : nat) (w : world) r w' :
  log fuel w = Some (r, w') → evolves w w'.
Proof.
  assert (Hframe : ∀ w1 w2 : world, fs w2 = fs w1 →
            (∃ evs, trace w2 = trace w1 ++ evs) → evolves w1 w2).
  { intros w1 w2 Hfs Ht. split; [|split; [|split]]; [..|done].
    - by rewrite Hfs.
    - by rewrite Hfs.
    - rewrite Hfs. by left. }
  unfold log. destruct (getHEAD w) as [[h|e] w0] eqn:Hh;
    pose proof (getHEAD_world _ _ _ Hh) as ->.
  - destruct (empty h).
    + intros [= _ <-]. apply evolves_emit.
    + intros Hrun. destruct (log_loop_frame _ _ _ _ _ Hrun) as (? & evs & ? & _).
      apply Hframe; eauto.
  - by intros [= _ <-].
Qed.

Lemma main_evolves (fuel : nat) (argv : list string) (w : world) status w' :
  main fuel argv w = Some (status, w') → evolves w w'.
Proof.
  apply (main_keeps evolves evolves_emit).
  - apply keeps_init.
  - apply keeps_add.
  - apply keeps_commit.
  - apply log_evolves.
Qed.

(** X12. Whatever the command line and whatever the outcome, a run of the
    program leaves every file outside the repository directory as it was
    (a command-line name may denote a file inside it, which [add] can
    rewrite), removes no path from the file system, and only appends to
    what was printed and written before. *)
Theorem main_monotone (fuel : nat) (argv : list string) (w : world) status w' :
  main fuel argv w = Some (status, w') →
  (∀ f, fs w' !! WorkFile f = fs w !! WorkFile f) ∧
  (∀ p, is_Some (fs w !! p) → is_Some (fs w' !! p)) ∧
  (∃ evs, trace w' = trace w ++ evs).
Proof.
  intros Hrun. destruct (main_evolves _ _ _ _ _ Hrun) as (? & ? & _ & ?).
  done.
Qed.

(** X13. A store in which every object sits under the hash of its own
    content stays so under every run of the program. *)
Theorem main_content_addressed (fuel : nat) (argv : list string)
    (w : world) status w' :
  main fuel argv w = Some (status, w') →
  content_addressed w → content_addressed w'.
Proof.
  intros Hrun Hca h blob Hb.
  destruct (main_evolves _ _ _ _ _ Hrun) as (_ & _ & Hobj & _).
  destruct (Hobj _ _ Hb) as [Hold|?]; [|done]. by eapply Hca.
Qed.

(** ** HEAD never dangles *)

Lemma head_kept_refl (w : world) : head_kept w w.
Proof. split; [apply evolves_refl|by left]. Qed.

Lemma head_kept_trans (w1 w2 w3 : world) :
  head_kept w1 w2 → head_kept w2 w3 → head_kept w1 w3.
Proof.
  intros [He1 Hh1] [He2 Hh2]. split; [by eapply evolves_trans|].
  destruct Hh2 as [Heq|?]; [|by right].
  destruct Hh1 as [Heq1|(h & Hh & Hv)]; [left; by rewrite Heq|].
  right. exists h.
  split; [by rewrite Heq|]. destruct Hv as [?|Hobj]; [by left|right].
  by apply He2.
Qed.

#[local] Instance head_kept_preorder : PreOrder head_kept.
Proof. split; [exact head_kept_refl|exact head_kept_trans]. Qed.

Lemma head_kept_emit (e : event) (w : world) : head_kept w (emit e w).
Proof. split; [apply evolves_emit|by left]. Qed.

Lemma head_kept_valid (w w' : world) :
  head_kept w w' → head_valid w → head_valid w'.
Proof.
  intros [(_ & Hp & _) Hhead] Hv h Hh.
  destruct Hhead as [Heq|(h' & Hfile & Hok)].
  - destruct (Hv h) as [?|Hobj]; [|by left|right; by apply Hp].
    by apply (getHEAD_same w' w).
  - rewrite (getHEAD_file _ _ Hfile) in Hh. by injection Hh as <-.
Qed.

Lemma init_head (w : world) r w' :
  init w = (r, w') →
  fs w' !! HEAD_FILE = fs w !! HEAD_FILE ∨
  fs w' !! HEAD_FILE = Some (File "").
Proof.
  unfold init, repoExists, bind, exists_, is_directory, create_directory,
    setHEAD, writeFileContent, setStagingArea, cout, ret, ofstream_write, emit.
  repeat case_match; simplify_eq/=; intros; simplify_eq/=;
    rewrite ?lookup_insert_ne by done; rewrite ?lookup_insert_eq; auto.
Qed.

Lemma head_kept_init : keeps head_kept init.
Proof.
  intros w r w' Hrun. split; [by eapply keeps_init|].
  destruct (init_head _ _ _ Hrun) as [?|?]; [by left|].
  right. exists "". auto.
Qed.

Lemma head_kept_add filenames : keeps head_kept (add filenames).
Proof.
  intros w r w' Hrun. split; [by eapply keeps_add|]. left.
  destruct (getStagingArea_total w) as (stagedFiles & Hs & _).
  by destruct (add_saved_frame hasher can_write resolve _ _ _ _ _ Hs Hrun).
Qed.

Lemma head_kept_commit message : keeps head_kept (commit message).
Proof.
  intros w r w' Hrun. split; [by eapply keeps_commit|].
  destruct (commit_cases _ _ _ _ Hrun)
    as [(_ & _ & ->)|[(what & _ & ->)|
         (stagedFiles & parentCommit & inherited & _ & _ & _ & _ & Hc)]];
    [by left..|].
  cbv zeta in Hc. destruct Hc as [_ [(_ & _ & ->)|(_ & _ & ->)]].
  - left. simpl. by rewrite lookup_insert_ne.
  - right. eexists. cbn [emit fs]. rewrite !index_cleared_lookup by done.
    simpl. rewrite lookup_insert_eq. split; [done|]. right.
    rewrite lookup_insert_ne by done. rewrite lookup_insert_eq. eauto.
Qed.

Lemma head_kept_log (fuel : nat) (w : world) r w' :
  log fuel w = Some (r, w') → head_kept w w'.
Proof.
  intros Hrun. split; [by eapply log_evolves|]. left.
  revert Hrun. unfold log. destruct (getHEAD w) as [[h|e] w0] eqn:Hh;
    pose proof (getHEAD_world _ _ _ Hh) as ->.
  - destruct (empty h); [by intros [= _ <-]|].
    intros Hrun. by destruct (log_loop_frame _ _ _ _ _ Hrun) as [-> _].
  - by intros [= _ <-].
Qed.

(** X14. When HEAD is empty or names an object of the store before a run
    of the program, it is empty or names an object of the store
    afterwards, whatever the command and its outcome. *)
Theorem main_head_valid (fuel : nat) (argv : list string)
    (w : world) status w' :
  main fuel argv w = Some (status, w') →
  head_valid w → head_valid w'.
Proof.
  intros Hrun. apply head_kept_valid. revert Hrun.
  apply (main_keeps head_kept head_kept_emit).
  - apply head_kept_init.
  - apply head_kept_add.
  - apply head_kept_commit.
  - apply head_kept_log.
Qed.

(** ** [commit] and [log] together *)

Lemma log_lines_records (l : list (string * string)) acc :
  Forall record_ok l →
  foldl log_line acc
    (getlines (foldr (λ pair text,
         "file: " +:+ pair.1 +:+ " " +:+ pair.2 +:+ endl +:+ text) "" l))
  = acc.
Proof.
  intros Hl. induction Hl as [|p l Hp Hl IH]; [done|].
  cbn [foldr].
  replace ("file: " +:+ p.1 +:+ " " +:+ p.2 +:+ endl +:+
           foldr (λ pair text,
             "file: " +:+ pair.1 +:+ " " +:+ pair.2 +:+ endl +:+ text) "" l)
    with (("file: " +:+ p.1 +:+ " " +:+ p.2) +:+ endl +:+
           foldr (λ pair text,
             "file: " +:+ pair.1 +:+ " " +:+ pair.2 +:+ endl +:+ text) "" l)
    by by rewrite !app_assoc'.
  rewrite getlines_line.
  - cbn [foldl]. rewrite <-IH at 2. f_equal. by destruct acc.
  - rewrite one_line_app. by rewrite record_one_line.
Qed.

(** [log] finds the parent and the message of a commit object written by
    [commit] when both are single lines. *)
Lemma log_parse_commit_text (parentCommit message : string) files :
  one_line parentCommit = true → one_line message = true →
  words_only files →
  foldl log_line ("", "") (getlines (commit_text parentCommit message files))
  = (parentCommit, message).
Proof.
  intros Hp Hm Hf. unfold commit_text.
  replace ("parent: " +:+ parentCommit +:+ endl +:+
           "message: " +:+ message +:+ endl +:+
           foldr (λ pair text,
             "file: " +:+ pair.1 +:+ " " +:+ pair.2 +:+ endl +:+ text) ""
             (entries files))
    with (("parent: " +:+ parentCommit) +:+ endl +:+
          ("message: " +:+ message) +:+ endl +:+
           foldr (λ pair text,
             "file: " +:+ pair.1 +:+ " " +:+ pair.2 +:+ endl +:+ text) ""
             (entries files))
    by (by rewrite !app_assoc').
  rewrite getlines_line; [|by rewrite one_line_app, Hp].
  rewrite getlines_line; [|by rewrite one_line_app, Hm].
  cbn [foldl]. rewrite log_lines_records by by apply words_only_entries.
  done.
Qed.

Lemma history_mono (w w' : world) a hs b :
  history w a hs b →
  (∀ h blob, fs w !! Object h = Some blob → fs w' !! Object h = Some blob) →
  history w' a hs b.
Proof.
  intros Hh Hsub. induction Hh; [constructor|].
  econstructor; eauto.
Qed.

(** X15. A successful [commit] with a single-line message, on top of a
    history that [log] can print down to a root commit, under a hash
    that is new to the store: HEAD then names the new commit, and [log]
    prints the new commit with its message first and the old history
    after it. *)
Theorem commit_extends_history (message : string) (w : world)
    stagedFiles parentCommit inherited hs :
  getStagingArea w = (Ok stagedFiles, w) → stagedFiles ≠ ∅ →
  getHEAD w = (Ok parentCommit, w) →
  getCommitFiles parentCommit w = (Ok inherited, w) →
  history w parentCommit hs "" →
  one_line parentCommit = true → one_line message = true →
  let commitHash :=
    hashString (commit_text parentCommit message
                  (merge_staged inherited stagedFiles)) in
  fs w !! Object commitHash = None →
  can_write (Object commitHash) = true → can_write HEAD_FILE = true →
  ∃ w', commit message w = (Ok tt, w') ∧
        getHEAD w' = (Ok commitHash, w') ∧
        history w' commitHash ((commitHash, message) :: hs) "" ∧
        ∀ fuel, length hs < fuel →
          log fuel w'
          = Some (Ok tt,
                  World (fs w')
                    (trace w' ++ log_entry commitHash message
                       ++ flat_map (λ e, log_entry e.1 e.2) hs)).
Proof.
  intros Hs Hne Hh Hp Hhist Hpl Hml commitHash Hnew Ho Hw.
  destruct (commit_ok hasher can_write message w _ _ _ Hs Hne Hh Hp Ho Hw)
    as (w' & Hrun & Hhead & Hobj & Hframe).
  fold commitHash in Hhead, Hobj, Hframe.
  exists w'. split; [done|].
  assert (Hhead' : getHEAD w' = (Ok commitHash, w')) by by apply getHEAD_file.
  split; [done|].
  assert (Hne' : commitHash ≠ "") by apply hashString_ne.
  assert (Hhist' : history w' commitHash ((commitHash, message) :: hs) "").
  { econstructor; [done|exact Hobj| |].
    - apply log_parse_commit_text; [done..|].
      rewrite merge_staged_union. apply words_only_union.
      + by eapply getStagingArea_words.
      + by eapply getCommitFiles_pure.
    - apply (history_mono w); [done|]. intros h blob Hb.
      rewrite Hframe; [done..|]. intros [= <-]. by rewrite Hnew in Hb. }
  split; [done|]. intros fuel Hfuel. unfold log. rewrite Hhead'.
  destruct commitHash as [|c h] eqn:E; [done|]. cbn [empty].
  destruct w' as [f t].
  by apply (log_loop_complete (World f t) _ _ Hhist').
Qed.

(** X16. After a [commit] that returns, the staging area is empty when
    the index could be rewritten, and a second [commit] then only prints
    "Nothing to commit"; when the index cannot be opened for writing,
    [commit] still returns normally and the staging area is what it was,
    so the same entries are staged for the next commit. *)
Theorem commit_then_commit (message again : string) (w w' : world)
    stagedFiles :
  getStagingArea w = (Ok stagedFiles, w) →
  commit message w = (Ok tt, w') →
  (can_write INDEX_FILE = true →
   getStagingArea w' = (Ok ∅, w') ∧
   commit again w'
   = (Ok tt,
      emit (Out ("Nothing to commit, working tree clean." +:+ endl)) w')) ∧
  (can_write INDEX_FILE = false →
   getStagingArea w' = (Ok stagedFiles, w')).
Proof.
  intros Hs Hrun.
  destruct (commit_cases _ _ _ _ Hrun)
    as [(Hs0 & _ & ->)|[(what & ? & _)|
         (staged & parentCommit & inherited & _ & _ & _ & _ & Hc)]];
    [|done|].
  - rewrite Hs in Hs0. injection Hs0 as ->.
    assert (Hs' : ∀ e, getStagingArea (emit e w) = (Ok ∅, emit e w))
      by (intros e; by apply (getStagingArea_same_index w)).
    split; [|done]. intros _.
    split; [done|]. unfold commit. unfold bind at 1. rewrite Hs'.
    by destruct (decide (∅ = ∅)).
  - cbv zeta in Hc. destruct Hc as [_ [(_ & ? & _)|(_ & _ & ->)]]; [done|].
    unfold index_cleared. split; intros Hi; rewrite Hi.
    + assert (Hs' : ∀ (w0 : world) t,
                getStagingArea (World (<[INDEX_FILE := File ""]> (fs w0)) t)
                = (Ok ∅, World (<[INDEX_FILE := File ""]> (fs w0)) t)).
      { intros w0 t. rewrite (getStagingArea_file _ ""); [done|].
        apply lookup_insert_eq. }
      split; [apply Hs'|]. unfold commit. unfold bind at 1.
      unfold emit. cbn [fs trace]. rewrite Hs'.
      by destruct (decide (∅ = ∅)).
    + apply (getStagingArea_same_index w); [|done]. simpl.
      by rewrite !lookup_insert_ne.
Qed.

(** ** [add]: faults and repetition *)

(** X17. An [add] that throws leaves the index as it was, so nothing of
    the batch is staged; and when the blob of the first file cannot be
    written, the program changes nothing, reports the path it could not
    write and exits with 1 without looking at the other arguments. *)
Theorem add_write_fault (prog : string) (fuel : nat) (w : world) :
  (∀ filenames what w',
     add filenames w = (Throw what, w') →
     fs w' !! INDEX_FILE = fs w !! INDEX_FILE) ∧
  (∀ filename rest content,
     repoExists w = (Ok true, w) →
     fs w !! resolve filename = Some (File content) →
     fs w !! Object (hashString content) = None →
     can_write (Object (hashString content)) = false →
     main fuel (prog :: "add" :: filename :: rest) w
     = Some (1%Z,
             emit (Err ("Error: Could not write to file: "
                        +:+ path_string (Object (hashString content))
                        +:+ endl)) w)).
Proof.
  split.
  - intros filenames what w' Hrun.
    destruct (getStagingArea_total w) as (stagedFiles & Hs & _).
    rewrite (add_unfold hasher can_write resolve _ _ _ Hs) in Hrun.
    destruct (for_each filenames add_file stagedFiles w) as [[s|e] w1] eqn:Hl.
    + revert Hrun. unfold setStagingArea. by destruct (can_write _).
    + injection Hrun as _ <-.
      destruct (add_loop_grows hasher can_write resolve _ _ _ _ _ Hl)
        as [[Hp _] _].
      by apply Hp.
  - intros filename rest content Hrepo Hf Hobj Hw.
    destruct (getStagingArea_total w) as (stagedFiles & Hs & _).
    unfold main, dispatch. simpl. unfold bind at 1. rewrite Hrepo. simpl.
    unfold bind at 1. rewrite (add_unfold hasher can_write resolve _ _ _ Hs).
    cbn [for_each]. unfold bind at 1.
    rewrite (add_file_fresh hasher can_write resolve _ _ _ _ Hf Hobj), Hw.
    simpl. unfold emit. simpl. by rewrite <-!app_assoc'.
Qed.

(** X18. When the index cannot be opened for writing, [add] of a regular
    file whose blob is or can be stored still prints "Staged" and the
    program exits with 0, but the staging area is what it was. *)
Theorem add_index_write_lost (prog filename content : string) (fuel : nat)
    (w : world) stagedFiles :
  repoExists w = (Ok true, w) →
  getStagingArea w = (Ok stagedFiles, w) →
  fs w !! resolve filename = Some (File content) →
  is_Some (fs w !! Object (hashString content))
  ∨ can_write (Object (hashString content)) = true →
  can_write INDEX_FILE = false →
  ∃ w', main fuel [prog; "add"; filename] w = Some (0%Z, w') ∧
        last (trace w') = Some (Out ("Staged " +:+ filename +:+ endl)) ∧
        getStagingArea w' = (Ok stagedFiles, w').
Proof.
  intros Hrepo Hs Hf Hobj Hi.
  unfold main, dispatch. simpl. unfold bind at 1. rewrite Hrepo. simpl.
  unfold bind at 1. rewrite (add_unfold hasher can_write resolve _ _ _ Hs).
  cbn [for_each]. unfold bind at 1.
  destruct (fs w !! Object (hashString content)) as [blob|] eqn:Ho.
  - rewrite (add_file_present hasher can_write resolve _ _ _ _ Hf)
      by (rewrite Ho; eauto).
    unfold ret, setStagingArea. rewrite Hi. simpl.
    eexists. split; [done|]. split.
    + simpl. by rewrite last_snoc.
    + by apply (getStagingArea_same_index w).
  - destruct Hobj as [[? [=]]|Hw].
    rewrite (add_file_fresh hasher can_write resolve _ _ _ _ Hf Ho), Hw.
    unfold ret, setStagingArea. rewrite Hi. simpl.
    eexists. split; [done|]. split.
    + simpl. by rewrite last_snoc.
    + apply (getStagingArea_same_index w); [|done]. simpl.
      by rewrite lookup_insert_ne.
Qed.

(** The loop of [add] over files that can be read and whose blobs are
    all in the store returns and writes nothing. *)
Lemma add_loop_present (filenames : list string) :
  ∀ stagedFiles (w : world),
    (∀ f, f ∈ filenames → fs w !! resolve f ≠ Some Unreadable) →
    (∀ f c, f ∈ filenames → fs w !! resolve f = Some (File c) →
            is_Some (fs w !! Object (hashString c))) →
    ∃ staged' w', for_each filenames add_file stagedFiles w = (Ok staged', w')
                  ∧ fs w' = fs w.
Proof.
  induction filenames as [|f l IH]; intros stagedFiles w Hread Hobj.
  { by exists stagedFiles, w. }
  cbn [for_each]. unfold bind at 1.
  assert (Hstep : ∃ s e, add_file stagedFiles f w = (Ok s, emit e w)).
  { destruct (fs w !! resolve f) as [[c| |]|] eqn:Hf.
    - rewrite (add_file_present hasher can_write resolve _ _ _ _ Hf);
        [by eauto|].
      apply (Hobj f); [by left|done].
    - rewrite (add_file_directory hasher can_write resolve _ _ _ Hf).
      by eauto.
    - destruct (Hread f); [by left|done].
    - rewrite (add_file_missing hasher can_write resolve _ _ _ Hf).
      by eauto. }
  destruct Hstep as (s & e & ->).
  destruct (IH s (emit e w)) as (staged' & w' & -> & Hfs).
  { intros g Hg. apply (Hread g). by right. }
  { intros g c Hg. apply (Hobj g). by right. }
  by exists staged', w'.
Qed.

(** X19. Running [add] again on the same arguments, when the first run
    returned, none of the arguments denotes the index or an object, and
    the arguments that name regular files are free of white space,
    returns as well and leaves every file as the first run left it: no
    blob is rewritten and the index gets the same text. *)
Theorem add_twice (filenames : list string) (w w1 : world) :
  add filenames w = (Ok tt, w1) →
  (∀ f c, f ∈ filenames → fs w !! resolve f = Some (File c) →
          is_word f = true) →
  (∀ f, f ∈ filenames → resolve f ≠ INDEX_FILE) →
  (∀ f h, f ∈ filenames → resolve f ≠ Object h) →
  ∃ w2, add filenames w1 = (Ok tt, w2) ∧ fs w2 = fs w1.
Proof.
  intros Hrun Hwords Hni Hno.
  destruct (getStagingArea_total w) as (stagedFiles & Hs & Hsw).
  rewrite (add_unfold hasher can_write resolve _ _ _ Hs) in Hrun.
  destruct (for_each filenames add_file stagedFiles w) as [[staged'|e] wl] eqn:Hl;
    [|done].
  destruct (add_loop_grows hasher can_write resolve _ _ _ _ _ Hl)
    as [(Hp & Hkeep & _) _].
  destruct (add_loop hasher can_write resolve _ _ _ _ _ Hno Hl)
    as (Hst & Hread & Hobj & _).
  assert (Hsw' : words_only staged').
  { apply (add_loop_words hasher stagedFiles); [done|].
    intros f. rewrite Hst. case_decide as Hin; [|done].
    destruct (fs w !! resolve f) as [[c| |]|] eqn:Hf; [|done..].
    intros _. split; [by eapply Hwords|eauto]. }
  assert (Hwork : ∀ f, f ∈ filenames →
            fs w1 !! resolve f = fs w !! resolve f).
  { intros f Hin. revert Hrun. unfold setStagingArea.
    destruct (can_write _); intros [= <-]; simpl;
      rewrite ?lookup_insert_ne by (intros E; by apply (Hni f)).
    - apply Hp. intros h. by apply Hno.
    - apply Hp. intros h. by apply Hno. }
  assert (Hread1 : ∀ f, f ∈ filenames → fs w1 !! resolve f ≠ Some Unreadable).
  { intros f Hin. rewrite Hwork by done. by apply Hread. }
  assert (Hobj1 : ∀ f c, f ∈ filenames →
            fs w1 !! resolve f = Some (File c) →
            is_Some (fs w1 !! Object (hashString c))).
  { intros f c Hin. rewrite Hwork by done. intros Hf.
    specialize (Hobj _ _ Hin Hf). revert Hrun. unfold setStagingArea.
    destruct (can_write _); intros [= <-]; simpl;
      by rewrite ?lookup_insert_ne. }
  assert (Hs1 : getStagingArea w1
                = (Ok (if can_write INDEX_FILE then staged' else stagedFiles),
                   w1)).
  { revert Hrun. unfold setStagingArea.
    destruct (can_write _); intros [= <-].
    - apply getStagingArea_index_text; [|done]. apply lookup_insert_eq.
    - apply (getStagingArea_same_index w); [|done]. by apply Hp. }
  rewrite (add_unfold hasher can_write resolve _ _ _ Hs1).
  destruct (add_loop_present filenames
              (if can_write INDEX_FILE then staged' else stagedFiles) w1
              Hread1 Hobj1)
    as (s2 & wl2 & Hl2 & Hfs2).
  rewrite Hl2. unfold setStagingArea.
  destruct (can_write INDEX_FILE) eqn:Hi; [|by eexists].
  eexists. split; [done|]. simpl. rewrite Hfs2.
  destruct (add_loop hasher can_write resolve _ _ _ _ _ Hno Hl2)
    as (Hst2 & _).
  assert (s2 = staged') as ->.
  { apply map_eq. intros f. rewrite Hst2, !Hst.
    case_decide as Hin; [|done]. rewrite Hwork by done.
    by destruct (fs w !! resolve f) as [[c| |]|]. }
  revert Hrun. unfold setStagingArea. rewrite Hi. intros [= <-]. simpl.
  by rewrite insert_insert_eq.
Qed.

(** ** From the working tree to the snapshot *)


(** X21. Whatever the index file or a commit object holds, the mappings
    that [getStagingArea] and [getCommitFiles] load from them only have
    non-empty filenames and hashes that are free of white space. *)
Theorem loaded_maps_words (w : world) :
  (∀ stagedFiles w', getStagingArea w = (Ok stagedFiles, w') →
     words_only stagedFiles) ∧
  (∀ commitHash files w', getCommitFiles commitHash w = (Ok files, w') →
     words_only files).
Proof.
  split.
  - intros stagedFiles w'. apply getStagingArea_words.
  - intros commitHash files w' Hrun. by eapply getCommitFiles_pure.
Qed.

(** ** Further edge cases *)

(** X22. [init] is not undone when it fails half way: when the two
    directories can be created but HEAD cannot be written, [minigit init]
    exits with 1 after the error message, the directories stay, and the
    directory counts as a repository from then on, so that a second
    [minigit init] only reports that it is initialized. *)
Theorem init_interrupted (prog : string) (fuel : nat) (w : world) :
  fs w !! GIT_DIR = None → fs w !! OBJECTS_DIR = None →
  can_write GIT_DIR = true → can_write OBJECTS_DIR = true →
  can_write HEAD_FILE = false →
  ∃ w', main fuel [prog; "init"] w = Some (1%Z, w') ∧
        fs w' = <[OBJECTS_DIR := Dir]> (<[GIT_DIR := Dir]> (fs w)) ∧
        trace w' = trace w ++
          [MkDir GIT_DIR; MkDir OBJECTS_DIR;
           Err ("Error: Could not write to file: "
                +:+ path_string HEAD_FILE +:+ endl)] ∧
        main fuel [prog; "init"] w'
        = Some (0%Z,
                emit (Out ("MiniGit repository already initialized in "
                           +:+ quoted (path_string GIT_DIR) +:+ endl)) w').
Proof.
  intros Hg Ho Hwg Hwo Hwh.
  assert (Hinit : init w
    = (Throw ("Could not write to file: " +:+ path_string HEAD_FILE),
       World (<[OBJECTS_DIR := Dir]> (<[GIT_DIR := Dir]> (fs w)))
             (trace w ++ [MkDir GIT_DIR; MkDir OBJECTS_DIR]))).
  { unfold init, repoExists, exists_, is_directory,
      create_directory, bind, ret, setHEAD, writeFileContent.
    rewrite Hg. rewrite bool_decide_eq_false_2 by (by intros []). simpl.
    rewrite Hg, Hwg. simpl. rewrite lookup_insert_ne by done.
    rewrite Ho, Hwo, Hwh. simpl. by rewrite <-!(assoc_L (++)). }
  eexists. split.
  { unfold main, dispatch. simpl. unfold bind at 1. by rewrite Hinit. }
  split; [done|]. split.
  { unfold cerr, emit. simpl. by rewrite <-!(assoc_L (++)), <-!app_assoc'. }
  unfold main, dispatch. simpl. unfold bind at 1. unfold init.
  unfold bind at 1. rewrite repoExists_directory; [done|]. simpl.
  rewrite lookup_insert_ne by done. apply lookup_insert_eq.
Qed.


(** X24. The commit object has no quoting for the message: a message
    whose second line reads "parent: <fake>" makes [log] print the first
    line as the message of the new commit and continue its walk at
    [fake] instead of the commit's parent. *)
Theorem commit_message_parent_line (msg fake : string) (w : world)
    stagedFiles parentCommit inherited :
  getStagingArea w = (Ok stagedFiles, w) → stagedFiles ≠ ∅ →
  getHEAD w = (Ok parentCommit, w) →
  getCommitFiles parentCommit w = (Ok inherited, w) →
  one_line parentCommit = true → one_line msg = true →
  one_line fake = true →
  let message := msg +:+ endl +:+ "parent: " +:+ fake in
  let commitHash :=
    hashString (commit_text parentCommit message
                  (merge_staged inherited stagedFiles)) in
  can_write (Object commitHash) = true → can_write HEAD_FILE = true →
  ∃ w', commit message w = (Ok tt, w') ∧
        getHEAD w' = (Ok commitHash, w') ∧
        history w' commitHash [(commitHash, msg)] fake.
Proof.
  intros Hs Hne Hh Hp Hpl Hml Hfl message commitHash Ho Hw.
  destruct (commit_ok hasher can_write message w _ _ _ Hs Hne Hh Hp Ho Hw)
    as (w' & Hrun & Hhead & Hobj & _).
  fold commitHash in Hhead, Hobj.
  exists w'. split; [done|]. split; [by apply getHEAD_file|].
  econstructor; [apply hashString_ne|exact Hobj| |constructor].
  unfold commit_text, message.
  replace ("parent: " +:+ parentCommit +:+ endl +:+
           "message: " +:+ (msg +:+ endl +:+ "parent: " +:+ fake) +:+ endl +:+
           foldr (λ pair text,
             "file: " +:+ pair.1 +:+ " " +:+ pair.2 +:+ endl +:+ text) ""
             (entries (merge_staged inherited stagedFiles)))
    with (("parent: " +:+ parentCommit) +:+ endl +:+
          ("message: " +:+ msg) +:+ endl +:+
          ("parent: " +:+ fake) +:+ endl +:+
           foldr (λ pair text,
             "file: " +:+ pair.1 +:+ " " +:+ pair.2 +:+ endl +:+ text) ""
             (entries (merge_staged inherited stagedFiles)))
    by (by rewrite !app_assoc').
  rewrite getlines_line; [|by rewrite one_line_app, Hpl].
  rewrite getlines_line; [|by rewrite one_line_app, Hml].
  rewrite getlines_line; [|by rewrite one_line_app, Hfl].
  cbn [foldl]. rewrite log_lines_records; [done|].
  apply words_only_entries. rewrite merge_staged_union.
  apply words_only_union.
  - by eapply getStagingArea_words.
  - by eapply getCommitFiles_pure.
Qed.

(** X25. A file that exists but cannot be opened is not skipped: [add]
    throws at it.  When it is the first argument, the program changes
    nothing, reports the name and exits with 1 without looking at the
    other arguments. *)
Theorem add_read_fault (prog filename : string) (rest : list string)
    (fuel : nat) (w : world) :
  repoExists w = (Ok true, w) →
  fs w !! resolve filename = Some Unreadable →
  (∀ stagedFiles,
     add_file stagedFiles filename w
     = (Throw ("Could not open file: " +:+ filename), w)) ∧
  add (filename :: rest) w
  = (Throw ("Could not open file: " +:+ filename), w) ∧
  main fuel (prog :: "add" :: filename :: rest) w
  = Some (1%Z,
          emit (Err ("Error: Could not open file: " +:+ filename +:+ endl)) w).
Proof.
  intros Hrepo Hf.
  destruct (getStagingArea_total w) as (stagedFiles & Hs & _).
  split; [|split].
  - intros staged. by apply add_file_unreadable.
  - rewrite (add_unfold hasher can_write resolve _ _ _ Hs).
    cbn [for_each]. unfold bind at 1.
    by rewrite (add_file_unreadable hasher can_write resolve _ _ _ Hf).
  - unfold main, dispatch. simpl. unfold bind at 1. rewrite Hrepo. simpl.
    unfold bind at 1. rewrite (add_unfold hasher can_write resolve _ _ _ Hs).
    cbn [for_each]. unfold bind at 1.
    rewrite (add_file_unreadable hasher can_write resolve _ _ _ Hf).
    simpl. unfold emit. simpl. by rewrite <-!app_assoc'.
Qed.

End MoreProperties.

(** * Instances

    The statements above, applied in the sample worlds. *)

Import Sample.

(** Two descriptions of one run agree on the value and on the world. *)
Lemma loaded_once {A} (r : result A * world) (a b : A) (w1 w2 : world) :
  r = (Ok a, w1) → r = (Ok b, w2) → a = b.
Proof. congruence. Qed.

Lemma run_once {A} (r : result A * world) (a b : result A) (w1 w2 : world) :
  r = (a, w1) → r = (b, w2) → w1 = w2.
Proof. congruence. Qed.

(** C1: with [a.txt] committed and only [b.txt] staged, the second
    commit resolves to both files; a third commit on top of it, with only
    [a.txt] staged, still resolves [b.txt]. *)
Lemma commit_snapshot_merge_witness :
  getHEAD second_staged = (Ok "3d21920e3b9d28c1", second_staged) ∧
  getCommitFiles "3d21920e3b9d28c1" second_staged
  = (Ok {["a.txt" := "a430d84680aabd0b"]}, second_staged) ∧
  getStagingArea second_staged
  = (Ok {["b.txt" := "4f59ff5e730c8af3"]}, second_staged) ∧
  (∃ w' commitHash resolved,
    commit fnv1a writable "second" second_staged = (Ok tt, w') ∧
    getHEAD w' = (Ok commitHash, w') ∧
    getCommitFiles commitHash w' = (Ok resolved, w') ∧
    resolved = {["a.txt" := "a430d84680aabd0b"; "b.txt" := "4f59ff5e730c8af3"]}) ∧
  getStagingArea third_staged
  = (Ok {["a.txt" := "a430d84680aabd0b"]}, third_staged) ∧
  ∃ w3 commitHash2 resolved2,
    commit fnv1a writable "third" third_staged = (Ok tt, w3) ∧
    getHEAD w3 = (Ok commitHash2, w3) ∧
    getCommitFiles commitHash2 w3 = (Ok resolved2, w3) ∧
    resolved2 !! "a.txt" = Some "a430d84680aabd0b" ∧
    resolved2 !! "b.txt" = Some "4f59ff5e730c8af3".
Proof.
  assert (Hh : getHEAD second_staged = (Ok "3d21920e3b9d28c1", second_staged))
    by reflexivity.
  assert (Hp : getCommitFiles "3d21920e3b9d28c1" second_staged
               = (Ok {["a.txt" := "a430d84680aabd0b"]}, second_staged))
    by reflexivity.
  assert (Hs : getStagingArea second_staged
               = (Ok {["b.txt" := "4f59ff5e730c8af3"]}, second_staged))
    by reflexivity.
  assert (Hs3 : getStagingArea third_staged
                = (Ok {["a.txt" := "a430d84680aabd0b"]}, third_staged))
    by reflexivity.
  assert (Hrun : commit fnv1a writable "second" second_staged
                 = (Ok tt, run (commit fnv1a writable "second") second_staged))
    by reflexivity.
  assert (Hh2 : getHEAD (run (commit fnv1a writable "second") second_staged)
                = (Ok "e1d18c54f32d1d8c",
                   run (commit fnv1a writable "second") second_staged))
    by reflexivity.
  assert (Hh3 : getHEAD third_staged = (Ok "e1d18c54f32d1d8c", third_staged))
    by reflexivity.
  assert (Ho3 : fs third_staged !! Object "e1d18c54f32d1d8c"
                = fs (run (commit fnv1a writable "second") second_staged)
                  !! Object "e1d18c54f32d1d8c")
    by reflexivity.
  assert (Hb : ({["b.txt" := "4f59ff5e730c8af3"]} : gmap string string)
               !! "b.txt" = Some "4f59ff5e730c8af3")
    by reflexivity.
  assert (Hab : "b.txt" ≠ "a.txt") by discriminate.
  split; [exact Hh|]. split; [exact Hp|]. split; [exact Hs|].
  destruct (commit_snapshot_merge fnv1a writable "second" second_staged
              {["b.txt" := "4f59ff5e730c8af3"]} "3d21920e3b9d28c1"
              {["a.txt" := "a430d84680aabd0b"]}
              Hs (insert_non_empty _ _ _) Hh Hp (λ _, eq_refl) eq_refl)
    as (w' & commitHash & snapshot & resolved
        & Hc & Hhead & _ & _ & Hl & Hr & _ & Heq & Hnext).
  split; [|split; [exact Hs3|]].
  - exists w', commitHash, resolved.
    split; [exact Hc|]. split; [exact Hhead|]. split; [exact Hr|].
    rewrite (Heq eq_refl eq_refl). apply map_eq. intros f. rewrite Hl.
    rewrite lookup_insert, !lookup_singleton.
    repeat case_decide; congruence.
  - rewrite (run_once _ _ _ _ _ Hc Hrun) in Hhead, Hnext.
    rewrite (loaded_once _ _ _ _ _ Hhead Hh2) in Hnext.
    destruct (Hnext "third" third_staged "a.txt" "a430d84680aabd0b"
                Hh3 Ho3 Hs3)
      as (w3 & commitHash2 & resolved2 & Hc3 & Hhead3 & Hr3 & Ha & Hkeep).
    exists w3, commitHash2, resolved2.
    split; [exact Hc3|]. split; [exact Hhead3|]. split; [exact Hr3|].
    split; [exact Ha|]. exact (Hkeep "b.txt" _ Hb Hab).
Defined.

(** C1, as stated, fails: a message with a second line "file: evil
    deadbeef" gives the commit a snapshot entry that is neither in the
    parent's snapshot (there is no parent) nor in the staging area. *)
Lemma commit_message_file_line :
  let message := "first" +:+ endl +:+ "file: evil deadbeef" in
  let w' := run (commit fnv1a writable message) staged_a in
  let commitHash :=
    hashString fnv1a
      (commit_text "" message {["a.txt" := "a430d84680aabd0b"]}) in
  getHEAD staged_a = (Ok "", staged_a) ∧
  getStagingArea staged_a
  = (Ok {["a.txt" := "a430d84680aabd0b"]}, staged_a) ∧
  commit fnv1a writable message staged_a = (Ok tt, w') ∧
  getHEAD w' = (Ok commitHash, w') ∧
  getCommitFiles commitHash w'
  = (Ok {["a.txt" := "a430d84680aabd0b"; "evil" := "deadbeef"]}, w').
Proof.
  split; [reflexivity|]. split; [reflexivity|]. split; [reflexivity|].
  split; reflexivity.
Qed.





(** C4: [minigit commit -m again] right after [init]. *)
Lemma commit_nothing_staged_witness :
  repoExists fresh = (Ok true, fresh) ∧
  getStagingArea fresh = (Ok ∅, fresh) ∧
  ∃ w', main fnv1a writable by_name "/home/user/project/.minigit" (λ _, "")
          0 ["minigit"; "commit"; "-m"; "again"] fresh = Some (0%Z, w') ∧
        fs w' = fs fresh.
Proof.
  split; [reflexivity|]. split; [reflexivity|].
  destruct (commit_nothing_staged fnv1a writable by_name
              "/home/user/project/.minigit" (λ _, "") 0 "minigit" "again"
              fresh eq_refl eq_refl)
    as (w' & _ & Hmain & Hfs & _).
  exists w'. split; [exact Hmain|exact Hfs].
Defined.

(** The sample repository has no object yet. *)
Lemma fresh_content_addressed : content_addressed fnv1a fresh.
Proof.
  intros h blob H. unfold fresh in H. simpl in H.
  rewrite !lookup_insert_ne in H by done. by rewrite lookup_empty in H.
Defined.

Lemma fresh_known (c : string) :
  known fresh c → c = "" ∨ c = "hello" ∨ c = "world".
Proof.
  intros [p H]. unfold fresh in H. simpl in H.
  repeat (apply lookup_insert_Some in H as [[? ?]|[_ H]];
          [simplify_eq; auto|]).
  by rewrite lookup_empty in H.
Defined.

Lemma fresh_collision_free : collision_free fnv1a fresh.
Proof.
  intros c1 c2 [->|[->| ->]]%fresh_known [->|[->| ->]]%fresh_known Hh;
    try reflexivity; vm_compute in Hh; discriminate Hh.
Defined.

(** C5: [a.txt] and [copy.txt] hold the same text. *)
Lemma store_twice_witness :
  ∃ w1 w2 staged1 staged2,
    add_file fnv1a writable by_name ∅ "a.txt" fresh = (Ok staged1, w1) ∧
    add_file fnv1a writable by_name staged1 "copy.txt" w1 = (Ok staged2, w2) ∧
    staged2 !! "a.txt" = staged2 !! "copy.txt" ∧
    fs w2 = fs w1 ∧
    ∀ h, fs w2 !! Object h = Some (File "hello")
         ↔ h = hashString fnv1a "hello".
Proof.
  destruct (store_twice fnv1a writable by_name "hello" "a.txt" "copy.txt" ∅
              fresh eq_refl eq_refl eq_refl)
    as (w1 & w2 & H1 & H2 & Hfs & _ & Hone & _).
  exists w1, w2. eexists _, _. split; [exact H1|]. split; [exact H2|].
  split; [reflexivity|]. split; [exact Hfs|].
  apply Hone; [exact fresh_content_addressed|].
  intros blob H. vm_compute in H. discriminate H.
Defined.

(** C5, as stated, fails: where the key of "hello" is taken by another
    text, storing "hello" twice yields the same hash twice and writes
    nothing, and the store holds no copy of "hello" at all. *)
Lemma store_twice_key_taken :
  let key := hashString fnv1a "hello" in
  let w1 := emit (Out ("Staged a.txt" +:+ endl)) mislabelled in
  let w2 := emit (Out ("Staged copy.txt" +:+ endl)) w1 in
  add_file fnv1a writable by_name ∅ "a.txt" mislabelled
  = (Ok {["a.txt" := key]}, w1) ∧
  add_file fnv1a writable by_name {["a.txt" := key]} "copy.txt" w1
  = (Ok (<["copy.txt" := key]> {["a.txt" := key]}), w2) ∧
  fs w2 !! Object key = Some (File "other text") ∧
  ∀ h, fs w2 !! Object h ≠ Some (File "hello").
Proof.
  split; [reflexivity|]. split; [reflexivity|]. split; [reflexivity|].
  intros h H. simpl in H. unfold fresh in H. simpl in H.
  repeat (apply lookup_insert_Some in H as [[? ?]|[_ H]]; [discriminate|]).
  by rewrite lookup_empty in H.
Qed.

(** C6: the object of the first commit. *)
Lemma commit_object_layout_witness :
  let text := "parent: " +:+ endl +:+ "message: first" +:+ endl +:+
              "file: a.txt a430d84680aabd0b" +:+ endl in
  ∃ w', commit fnv1a writable "first" staged_a = (Ok tt, w') ∧
        fs w' !! Object (hashString fnv1a text) = Some (File text) ∧
        getHEAD w' = (Ok (hashString fnv1a text), w').
Proof.
  assert (Hs : getStagingArea staged_a
               = (Ok {["a.txt" := "a430d84680aabd0b"]}, staged_a))
    by reflexivity.
  destruct (commit_object_layout fnv1a writable "first" staged_a
              {["a.txt" := "a430d84680aabd0b"]} "" ∅
              Hs (insert_non_empty _ _ _) eq_refl eq_refl eq_refl eq_refl)
    as [Hrun _].
  exact Hrun.
Defined.




Lemma batch_words (f : string) :
  f ∈ ["a.txt"; "nope"; "docs"; "b.txt"] → is_word f = true.
Proof.
  intros Hin.
  repeat (apply elem_of_cons in Hin as [->|Hin]; [reflexivity|]).
  by apply elem_of_nil in Hin.
Defined.

Lemma batch_outside (f h : string) :
  f ∈ ["a.txt"; "nope"; "docs"; "b.txt"] → by_name f ≠ Object h.
Proof.
  intros Hin.
  repeat (apply elem_of_cons in Hin as [->|Hin]; [discriminate|]).
  by apply elem_of_nil in Hin.
Defined.

Lemma batch_not_index (f : string) :
  f ∈ ["a.txt"; "nope"; "docs"; "b.txt"] → by_name f ≠ INDEX_FILE.
Proof.
  intros Hin.
  repeat (apply elem_of_cons in Hin as [->|Hin]; [discriminate|]).
  by apply elem_of_nil in Hin.
Defined.

Lemma batch_readable (f : string) :
  f ∈ ["a.txt"; "nope"; "docs"; "b.txt"] →
  fs fresh !! by_name f ≠ Some Unreadable.
Proof.
  intros Hin.
  repeat (apply elem_of_cons in Hin as [->|Hin]; [discriminate|]).
  by apply elem_of_nil in Hin.
Defined.



Lemma second_batch_words (f : string) :
  f ∈ ["b.txt"; "nope"] → is_word f = true.
Proof.
  intros Hin.
  repeat (apply elem_of_cons in Hin as [->|Hin]; [reflexivity|]).
  by apply elem_of_nil in Hin.
Defined.

Lemma second_batch_not_a :
  "a.txt" ∉ ["b.txt"; "nope"].
Proof.
  intros Hin.
  repeat (apply elem_of_cons in Hin as [Hin|Hin]; [discriminate Hin|]).
  by apply elem_of_nil in Hin.
Defined.

(** C10: with [a.txt] staged, [add b.txt nope] leaves HEAD and the entry
    of [a.txt] alone, and adds the entry of [b.txt]. *)
Lemma add_frame_witness :
  let w' := run (add fnv1a writable by_name ["b.txt"; "nope"]) staged_a in
  getStagingArea staged_a
  = (Ok {["a.txt" := "a430d84680aabd0b"]}, staged_a) ∧
  add fnv1a writable by_name ["b.txt"; "nope"] staged_a = (Ok tt, w') ∧
  fs w' !! HEAD_FILE = fs staged_a !! HEAD_FILE ∧
  ∃ staged',
    getStagingArea w' = (Ok staged', w') ∧
    staged' !! "a.txt" = Some "a430d84680aabd0b" ∧
    staged' !! "b.txt" = Some (hashString fnv1a "world").
Proof.
  intros w'.
  assert (Hs : getStagingArea staged_a
               = (Ok {["a.txt" := "a430d84680aabd0b"]}, staged_a))
    by reflexivity.
  assert (Hadd : add fnv1a writable by_name ["b.txt"; "nope"] staged_a
                 = (Ok tt, w'))
    by reflexivity.
  split; [exact Hs|]. split; [exact Hadd|].
  destruct (add_frame fnv1a writable by_name ["b.txt"; "nope"]
              staged_a {["a.txt" := "a430d84680aabd0b"]} (Ok tt) w'
              Hs Hadd)
    as [Hhead Hframe].
  split; [exact Hhead|].
  destruct (Hframe (λ f c Hin _, second_batch_words f Hin))
    as (staged' & Hload & Hout & Hin & _).
  exists staged'. split; [exact Hload|]. split.
  - exact (Hout "a.txt" second_batch_not_a).
  - assert (Hb : staged' !! "b.txt" ≠ ({["a.txt" := "a430d84680aabd0b"]}
                                        : gmap string string) !! "b.txt").
    { assert (Hc : getStagingArea w'
                   = (Ok {["a.txt" := "a430d84680aabd0b";
                           "b.txt" := "4f59ff5e730c8af3"]}, w'))
        by reflexivity.
      rewrite (loaded_once _ _ _ _ _ Hload Hc). vm_compute. discriminate. }
    destruct (Hin "b.txt" Hb) as (_ & c & [Hc|(h & Hr & _)] & Hh).
    + injection Hc as <-. exact Hh.
    + discriminate Hr.
Defined.

(** C10, as stated, fails: [add "my file"] changes the entry of [my],
    which is not among its arguments. *)
Lemma add_spaced_filename_overwrites_entry :
  ("my" ∉ ["my file"]) ∧
  ∃ before w' after,
    getStagingArea spaced = (Ok before, spaced) ∧
    add fnv1a writable by_name ["my file"] spaced = (Ok tt, w') ∧
    getStagingArea w' = (Ok after, w') ∧
    before !! "my" = Some (hashString fnv1a "notes") ∧
    after !! "my" = Some "file".
Proof.
  split.
  - intros [H|H]%elem_of_cons; [discriminate H|by apply elem_of_nil in H].
  - eexists _, _, _. split; [reflexivity|]. split; [reflexivity|].
    split; [reflexivity|]. split; reflexivity.
Qed.

(** ** Instances of the further properties *)


(** X3: [minigit init] next to [a.txt]. *)
Lemma init_fresh_witness :
  ∃ w', main fnv1a writable by_name "/home/user/project/.minigit" (λ _, "")
          0 ["minigit"; "init"] bare = Some (0%Z, w') ∧
        fs w' !! WorkFile "a.txt" = Some (File "hello") ∧
        fs w' !! OBJECTS_DIR = Some Dir ∧
        getStagingArea w' = (Ok ∅, w').
Proof.
  destruct (init_fresh fnv1a writable by_name "/home/user/project/.minigit" (λ _, "")
              "minigit" 0 bare eq_refl eq_refl (λ _, eq_refl))
    as (w' & Hmain & Hfs & _ & _ & _ & Hs).
  exists w'. split; [exact Hmain|]. rewrite Hfs.
  split; [reflexivity|]. split; [reflexivity|exact Hs].
Defined.

(** X4: [minigit init] in the sample repository. *)
Lemma init_again_witness :
  ∃ w', main fnv1a writable by_name "/home/user/project/.minigit" (λ _, "")
          0 ["minigit"; "init"] fresh = Some (0%Z, w') ∧
        fs w' = fs fresh.
Proof.
  destruct (init_again fnv1a writable by_name "/home/user/project/.minigit" (λ _, "")
              "minigit" 0 fresh eq_refl)
    as (w' & Hmain & Hfs & _).
  exists w'. split; [exact Hmain|exact Hfs].
Defined.

(** X5: [log] in a store with a missing parent. *)
Lemma log_read_only_witness :
  ∃ r w', log 2 orphaned = Some (r, w') ∧ fs w' = fs orphaned.
Proof.
  eexists _, _. split; [reflexivity|].
  destruct (log_read_only 2 orphaned _ _ eq_refl) as [Hfs _].
  exact Hfs.
Defined.

(** X6: [minigit log] right after [init]. *)
Lemma log_no_commits_witness :
  main fnv1a writable by_name "/home/user/project/.minigit" (λ _, "")
    0 ["minigit"; "log"] fresh
  = Some (0%Z, emit (Out ("No commits yet." +:+ endl)) fresh).
Proof.
  exact (log_no_commits fnv1a writable by_name "/home/user/project/.minigit"
           (λ _, "") "minigit" 0 fresh eq_refl eq_refl).
Defined.

Lemma two_commits_history :
  history two_commits "c2" [("c2", "second"); ("c1", "first")] "".
Proof.
  eapply history_step; [discriminate|reflexivity|reflexivity|].
  eapply history_step; [discriminate|reflexivity|reflexivity|].
  apply history_end.
Defined.

(** X7: [minigit log] in a repository with two commits. *)
Lemma log_full_history_witness :
  main fnv1a writable by_name "/home/user/project/.minigit" (λ _, "")
    2 ["minigit"; "log"] two_commits
  = Some (0%Z,
          World (fs two_commits)
            [Out ("commit c2" +:+ endl);
             Out ("    second" +:+ endl +:+ endl);
             Out ("commit c1" +:+ endl);
             Out ("    first" +:+ endl +:+ endl)]).
Proof.
  exact (log_full_history fnv1a writable by_name "/home/user/project/.minigit"
           (λ _, "") "minigit" 2 two_commits "c2" _
           eq_refl eq_refl ltac:(discriminate) two_commits_history
           ltac:(simpl; lia)).
Defined.

Lemma circular_history :
  history circular "c2" [("c2", "second"); ("c1", "first")] "c2".
Proof.
  eapply history_step; [discriminate|reflexivity|reflexivity|].
  eapply history_step; [discriminate|reflexivity|reflexivity|].
  apply history_end.
Defined.

(** X8: [minigit log] where two commits name each other as parent;
    a thousand rounds of the loop do not end it. *)
Lemma log_cycle_diverges_witness :
  history circular "c2" [("c2", "second"); ("c1", "first")] "c2" ∧
  main fnv1a writable by_name "/home/user/project/.minigit" (λ _, "")
    1000 ["minigit"; "log"] circular = None.
Proof.
  split; [exact circular_history|].
  destruct (log_cycle_diverges fnv1a writable by_name "/home/user/project/.minigit"
              (λ _, "") "minigit" circular "c2" _
              eq_refl eq_refl circular_history ltac:(discriminate) 1000)
    as [_ Hmain].
  exact Hmain.
Defined.

(** X9: [minigit add a.txt] before [init]. *)
Lemma main_outside_repository_witness :
  main fnv1a writable by_name "/home/user/project/.minigit" (λ _, "")
    0 ["minigit"; "add"; "a.txt"] bare
  = Some (1%Z,
          emit (Err ("Fatal: Not a MiniGit repository. "
                     +:+ "(Run 'minigit init' first)" +:+ endl)) bare).
Proof.
  destruct (main_outside_repository fnv1a writable by_name
              "/home/user/project/.minigit" (λ _, "") "minigit" 0
              ["a.txt"] bare eq_refl)
    as [Hadd _].
  exact Hadd.
Defined.

(** X10: [minigit], [minigit status], [minigit add] and
    [minigit commit first]. *)
Lemma main_bad_arguments_witness :
  ∃ usage,
    main fnv1a writable by_name "/home/user/project/.minigit" (λ _, "")
      0 ["minigit"] fresh = Some (1%Z, emit (Err usage) fresh) ∧
    main fnv1a writable by_name "/home/user/project/.minigit" (λ _, "")
      0 ["minigit"; "status"] fresh
    = Some (1%Z,
            emit (Err usage)
              (emit (Err ("Unknown command: status" +:+ endl)) fresh)) ∧
    main fnv1a writable by_name "/home/user/project/.minigit" (λ _, "")
      0 ["minigit"; "add"] fresh
    = Some (1%Z, emit (Err ("Usage: minigit add <file1> [file2]..."
                            +:+ endl)) fresh) ∧
    main fnv1a writable by_name "/home/user/project/.minigit" (λ _, "")
      0 ["minigit"; "commit"; "first"] fresh
    = Some (1%Z, emit (Err commit_usage) fresh).
Proof.
  destruct (main_bad_arguments fnv1a writable by_name "/home/user/project/.minigit"
              (λ _, "") "minigit" 0 fresh)
    as (usage & _ & Hshort & Hunknown & Hadd & Hcommit).
  exists usage. split; [apply Hshort; simpl; lia|].
  split.
  { apply Hunknown. rewrite !elem_of_cons, elem_of_nil.
    intros [H|[H|[H|[H|[]]]]]; discriminate H. }
  split; [exact (Hadd eq_refl)|].
  apply (Hcommit eq_refl). intros message H. discriminate H.
Defined.

(** X11: [minigit commit -m first] where HEAD names a missing object. *)
Lemma commit_missing_parent_witness :
  main fnv1a writable by_name "/home/user/project/.minigit" (λ _, "")
    0 ["minigit"; "commit"; "-m"; "first"] dangling
  = Some (1%Z,
          emit (Err ("Error: Cannot find commit object: gone" +:+ endl))
            dangling).
Proof.
  assert (Hs : getStagingArea dangling
               = (Ok {["a.txt" := "a430d84680aabd0b"]}, dangling))
    by reflexivity.
  assert (Hgone : "gone" ≠ "") by discriminate.
  destruct (commit_missing_parent fnv1a writable by_name
              "/home/user/project/.minigit" (λ _, "") "minigit" "first" 0
              dangling {["a.txt" := "a430d84680aabd0b"]} "gone"
              Hs (insert_non_empty _ _ _) eq_refl Hgone eq_refl)
    as [_ Hmain].
  exact (Hmain eq_refl).
Defined.

(** X12: [minigit add a.txt] leaves [a.txt] and the repository
    directory in place. *)
Lemma main_monotone_witness :
  ∃ w', main fnv1a writable by_name "/home/user/project/.minigit" (λ _, "")
          0 ["minigit"; "add"; "a.txt"] fresh = Some (0%Z, w') ∧
        fs w' !! WorkFile "a.txt" = Some (File "hello") ∧
        is_Some (fs w' !! GIT_DIR).
Proof.
  eexists. split; [reflexivity|].
  destruct (main_monotone fnv1a writable by_name "/home/user/project/.minigit"
              (λ _, "") 0 ["minigit"; "add"; "a.txt"] fresh _ _ eq_refl)
    as (Hwork & Hkeep & _).
  split; [exact (Hwork "a.txt")|].
  apply Hkeep. eexists. reflexivity.
Defined.

(** X13: the store after [minigit add a.txt b.txt]. *)
Lemma main_content_addressed_witness :
  ∃ w', main fnv1a writable by_name "/home/user/project/.minigit" (λ _, "")
          0 ["minigit"; "add"; "a.txt"; "b.txt"] fresh = Some (0%Z, w') ∧
        content_addressed fnv1a w'.
Proof.
  eexists. split; [reflexivity|].
  exact (main_content_addressed fnv1a writable by_name "/home/user/project/.minigit"
           (λ _, "") 0 ["minigit"; "add"; "a.txt"; "b.txt"] fresh _ _
           eq_refl fresh_content_addressed).
Defined.

Lemma staged_a_head_valid : head_valid staged_a.
Proof.
  assert (Hget : getHEAD staged_a = (Ok "", staged_a)) by reflexivity.
  intros h Hh. left. congruence.
Defined.

(** X14: HEAD after the first commit. *)
Lemma main_head_valid_witness :
  ∃ w', main fnv1a writable by_name "/home/user/project/.minigit" (λ _, "")
          0 ["minigit"; "commit"; "-m"; "first"] staged_a = Some (0%Z, w') ∧
        head_valid w'.
Proof.
  eexists. split; [reflexivity|].
  exact (main_head_valid fnv1a writable by_name "/home/user/project/.minigit"
           (λ _, "") 0 ["minigit"; "commit"; "-m"; "first"] staged_a _ _
           eq_refl staged_a_head_valid).
Defined.

(** X15: the first commit, then [log]. *)
Lemma commit_extends_history_witness :
  ∃ w' commitHash,
    commit fnv1a writable "first" staged_a = (Ok tt, w') ∧
    log 1 w'
    = Some (Ok tt,
            World (fs w')
              (trace w' ++ [Out ("commit " +:+ commitHash +:+ endl);
                            Out ("    first" +:+ endl +:+ endl)])).
Proof.
  assert (Hs : getStagingArea staged_a
               = (Ok {["a.txt" := "a430d84680aabd0b"]}, staged_a))
    by reflexivity.
  destruct (commit_extends_history fnv1a writable "first" staged_a
              {["a.txt" := "a430d84680aabd0b"]} "" ∅ []
              Hs (insert_non_empty _ _ _) eq_refl eq_refl
              (history_end _ _) eq_refl eq_refl eq_refl eq_refl eq_refl)
    as (w' & Hrun & _ & _ & Hlog).
  exists w'. eexists. split; [exact Hrun|].
  apply (Hlog 1). simpl. lia.
Defined.

(** X16: two commits in a row, and a commit with the index locked. *)
Lemma commit_then_commit_witness :
  (∃ w', commit fnv1a writable "first" staged_a = (Ok tt, w') ∧
         commit fnv1a writable "again" w'
         = (Ok tt,
            emit (Out ("Nothing to commit, working tree clean." +:+ endl))
              w')) ∧
  (∃ w', commit fnv1a index_locked "first" staged_a = (Ok tt, w') ∧
         getStagingArea w'
         = (Ok {["a.txt" := "a430d84680aabd0b"]}, w')).
Proof.
  assert (Hs : getStagingArea staged_a
               = (Ok {["a.txt" := "a430d84680aabd0b"]}, staged_a))
    by reflexivity.
  split.
  - destruct (commit_ok fnv1a writable "first" staged_a
                {["a.txt" := "a430d84680aabd0b"]} "" ∅
                Hs (insert_non_empty _ _ _) eq_refl eq_refl eq_refl eq_refl)
      as (w' & Hrun & _).
    exists w'. split; [exact Hrun|].
    destruct (commit_then_commit fnv1a writable "first" "again" staged_a w'
                {["a.txt" := "a430d84680aabd0b"]} Hs Hrun)
      as [Hclear _].
    exact (proj2 (Hclear eq_refl)).
  - destruct (commit_ok fnv1a index_locked "first" staged_a
                {["a.txt" := "a430d84680aabd0b"]} "" ∅
                Hs (insert_non_empty _ _ _) eq_refl eq_refl eq_refl eq_refl)
      as (w' & Hrun & _).
    exists w'. split; [exact Hrun|].
    destruct (commit_then_commit fnv1a index_locked "first" "again" staged_a
                w' {["a.txt" := "a430d84680aabd0b"]} Hs Hrun)
      as [_ Hlost].
    exact (Hlost eq_refl).
Defined.

(** X17: [minigit add a.txt b.txt] with the object store locked. *)
Lemma add_write_fault_witness :
  main fnv1a store_locked by_name "/home/user/project/.minigit" (λ _, "")
    0 ["minigit"; "add"; "a.txt"; "b.txt"] fresh
  = Some (1%Z,
          emit (Err ("Error: Could not write to file: "
                     +:+ ".minigit/objects/a430d84680aabd0b" +:+ endl))
            fresh) ∧
  ∃ what w', add fnv1a store_locked by_name ["a.txt"; "b.txt"] fresh
             = (Throw what, w') ∧
             fs w' !! INDEX_FILE = fs fresh !! INDEX_FILE.
Proof.
  destruct (add_write_fault fnv1a store_locked by_name "/home/user/project/.minigit"
              (λ _, "") "minigit" 0 fresh)
    as [Hindex Hmain].
  split.
  - exact (Hmain "a.txt" ["b.txt"] "hello" eq_refl eq_refl eq_refl eq_refl).
  - eexists _, _. split; [reflexivity|].
    exact (Hindex ["a.txt"; "b.txt"] _ _ eq_refl).
Defined.

(** X18: [minigit add a.txt] with the index locked. *)
Lemma add_index_write_lost_witness :
  ∃ w', main fnv1a index_locked by_name "/home/user/project/.minigit" (λ _, "")
          0 ["minigit"; "add"; "a.txt"] fresh = Some (0%Z, w') ∧
        last (trace w') = Some (Out ("Staged a.txt" +:+ endl)) ∧
        getStagingArea w' = (Ok ∅, w').
Proof.
  exact (add_index_write_lost fnv1a index_locked by_name
           "/home/user/project/.minigit" (λ _, "") "minigit" "a.txt" "hello"
           0 fresh ∅ eq_refl eq_refl eq_refl (or_intror eq_refl) eq_refl).
Defined.

(** X19: the sample batch, added a second time. *)
Lemma add_twice_witness :
  ∃ w2, add fnv1a writable by_name ["a.txt"; "nope"; "docs"; "b.txt"] batch_added
        = (Ok tt, w2) ∧
        fs w2 = fs batch_added.
Proof.
  exact (add_twice fnv1a writable by_name ["a.txt"; "nope"; "docs"; "b.txt"]
           fresh batch_added eq_refl (λ f c Hin _, batch_words f Hin)
           batch_not_index (λ f h, batch_outside f h)).
Defined.


(** X21: the staging area of [staged_a] and the snapshot of the commit
    in [orphaned]. *)
Lemma loaded_maps_words_witness :
  words_only ({["a.txt" := "a430d84680aabd0b"]} : gmap string string).
Proof.
  destruct (loaded_maps_words staged_a) as [Hindex _].
  exact (Hindex {["a.txt" := "a430d84680aabd0b"]} staged_a eq_refl).
Defined.

(** X22: [minigit init] where HEAD cannot be written. *)
Lemma init_interrupted_witness :
  ∃ w', main fnv1a head_locked by_name "/home/user/project/.minigit" (λ _, "")
          0 ["minigit"; "init"] bare = Some (1%Z, w') ∧
        fs w' !! GIT_DIR = Some Dir ∧
        fs w' !! HEAD_FILE = None ∧
        main fnv1a head_locked by_name "/home/user/project/.minigit" (λ _, "")
          0 ["minigit"; "init"] w'
        = Some (0%Z,
                emit (Out ("MiniGit repository already initialized in "
                           +:+ quoted ".minigit" +:+ endl)) w').
Proof.
  destruct (init_interrupted fnv1a head_locked by_name "/home/user/project/.minigit"
              (λ _, "") "minigit" 0 bare
              eq_refl eq_refl eq_refl eq_refl eq_refl)
    as (w' & Hmain & Hfs & _ & Hagain).
  exists w'. split; [exact Hmain|]. rewrite Hfs.
  split; [reflexivity|]. split; [reflexivity|exact Hagain].
Defined.


(** X24: a commit whose message has a second line "parent: c0ffee". *)
Lemma commit_message_parent_line_witness :
  ∃ w' commitHash,
    commit fnv1a writable ("first" +:+ endl +:+ "parent: c0ffee") staged_a
    = (Ok tt, w') ∧
    getHEAD w' = (Ok commitHash, w') ∧
    history w' commitHash [(commitHash, "first")] "c0ffee".
Proof.
  assert (Hs : getStagingArea staged_a
               = (Ok {["a.txt" := "a430d84680aabd0b"]}, staged_a))
    by reflexivity.
  destruct (commit_message_parent_line fnv1a writable "first" "c0ffee"
              staged_a {["a.txt" := "a430d84680aabd0b"]} "" ∅
              Hs (insert_non_empty _ _ _) eq_refl eq_refl
              eq_refl eq_refl eq_refl eq_refl eq_refl)
    as (w' & Hrun & Hhead & Hhist).
  exists w'. eexists. split; [exact Hrun|]. split; [exact Hhead|exact Hhist].
Defined.

(** X25: [minigit add secret.txt a.txt] where [secret.txt] cannot be
    opened. *)
Lemma add_read_fault_witness :
  main fnv1a writable by_name "/home/user/project/.minigit" (λ _, "")
    0 ["minigit"; "add"; "secret.txt"; "a.txt"] damaged
  = Some (1%Z,
          emit (Err ("Error: Could not open file: secret.txt" +:+ endl))
            damaged).
Proof.
  destruct (add_read_fault fnv1a writable by_name
              "/home/user/project/.minigit" (λ _, "")
              "minigit" "secret.txt" ["a.txt"] 0 damaged eq_refl eq_refl)
    as (_ & _ & Hmain).
  exact Hmain.
Defined.

(** ** Names that denote files of the repository

    The statements about [add] that exclude arguments naming the index
    or an object do so for a reason. *)

(** [minigit add .minigit/index] stages the index under the hash of its
    own text and then rewrites it: a second run finds another text. *)
Example add_index_by_name :
  let w1 := run (add fnv1a writable by_name [".minigit/index"]) fresh in
  let w2 := run (add fnv1a writable by_name [".minigit/index"]) w1 in
  fs w1 !! INDEX_FILE
  = Some (File (".minigit/index cbf29ce484222325" +:+ endl)) ∧
  fs w2 !! INDEX_FILE
  = Some (File (".minigit/index 8354c8696c5616f5" +:+ endl)).
Proof. split; reflexivity. Qed.

(** [minigit add a.txt .minigit/objects/a430d84680aabd0b]: the second
    argument names no file before the run, the first argument creates
    it, and it is staged. *)
Example add_blob_by_name :
  let name := ".minigit/objects/a430d84680aabd0b" in
  let w' := run (add fnv1a writable by_name ["a.txt"; name]) fresh in
  fs fresh !! by_name name = None ∧
  fs w' !! by_name name = Some (File "hello") ∧
  getStagingArea w'
  = (Ok {["a.txt" := "a430d84680aabd0b"; name := "a430d84680aabd0b"]}, w').
Proof. split; [reflexivity|]. split; reflexivity. Qed.
